(** * Interactive music map: note classification, quantization, map
      position and the map view's viewport and drag logic

    A shallow embedding of the computational core of the application
    ([classifyNotes], [quantizeNotes] and the map-position formula of
    [App.tsx], the corpus preprocessing script, and the pan / zoom / drag
    handlers of [components/MusicMap.tsx]) together with the properties
    the specification states about them.

    Numbers.  A JavaScript [number] is modelled as an exact rational
    ([Q]): the arithmetic of the source is kept operation by operation,
    but rounding error, infinities and NaN of IEEE-754 doubles are not
    part of the model.  Every division of the source whose divisor is a
    run-time quantity is only meaningful in the model when the divisor is
    non-zero; the theorems carry that as a hypothesis.

    The grid line [quantizeNotes] picks for a note is the one place
    where rounding decides more than the last digit: a quotient that is
    exactly half-way between two integers in exact arithmetic falls on
    either side of the half once it is rounded.  The quantizer is
    therefore given a second time in the arithmetic of the machine
    (module [Quantizer64], over the binary64 operations of the Standard
    Library's [SpecFloat]), and the formula of the grid is stated
    there.  The module [Quantizer] in exact arithmetic carries the
    properties that do not depend on which of two equally near grid
    lines is taken. *)

From Stdlib Require Import QArith Qround Lqa ZArith Lia List Bool Permutation Sorted.
From Stdlib Require String SpecFloat.
From Equations Require Import Equations.
Import ListNotations.

Local Open Scope Q_scope.

(** ** JavaScript numbers and the [Math] functions used by the source *)

Module JS.

Definition number : Type := Q.

(** [a < b] on numbers. *)
Definition lt (a b : number) : bool := negb (Qle_bool b a).

(** [a > b] on numbers. *)
Definition gt (a b : number) : bool := lt b a.

(** [Math.max(a, b)]. *)
Definition Math_max (a b : number) : number := if lt a b then b else a.

(** [Math.min(a, b)]. *)
Definition Math_min (a b : number) : number := if lt b a then b else a.

(** [Math.round(x)]: the nearest integer, halves rounded towards
    plus infinity. *)
Definition Math_round (x : number) : number := inject_Z (Qfloor (x + (1 # 2))).

End JS.

(** ** [types.ts] *)

Record MidiNote : Type := mkMidiNote {
  pitch : JS.number;
  startTime : JS.number;
  duration : JS.number;
  velocity : option JS.number
}.

Record Analysis : Type := mkAnalysis {
  melodicComplexity : JS.number;
  harmonicRichness : JS.number;
  melodicRichness : JS.number
}.

Record MapPosition : Type := mkMapPosition {
  pos_x : JS.number;
  pos_y : JS.number
}.

Inductive Quantization : Type := Q16 | Q8T.

(** ** Generic list helpers for the scanning loops *)

Section Scan.
Context {A : Type} (p : A -> bool).

Fixpoint takeWhile (l : list A) : list A :=
  match l with
  | [] => []
  | x :: tl => if p x then x :: takeWhile tl else []
  end.

Fixpoint dropWhile (l : list A) : list A :=
  match l with
  | [] => []
  | x :: tl => if p x then dropWhile tl else l
  end.
End Scan.

(** ** Note classifier ([classifyNotes], App.tsx)

    The arrays of the source hold references to note objects, and the
    harmony filter [note !== topNote] compares references, not field
    values.  A reference is modelled as an address ([nat]) into a store
    [heap] of note objects; the arrays are lists of addresses. *)

Module Classifier.
Section WithHeap.

Variable heap : nat -> MidiNote.

Definition timeThreshold : JS.number := 2 # 100.

(** The comparator passed to [sort]: [(a, b) => a.startTime - b.startTime]. *)
Definition compareFn (a b : nat) : JS.number :=
  startTime (heap a) - startTime (heap b).

(** [Array.prototype.sort] is stable: an element is placed after the
    elements that compare strictly before it, and before the others. *)
Fixpoint insert (a : nat) (sorted : list nat) : list nat :=
  match sorted with
  | [] => [a]
  | b :: tl => if JS.lt (compareFn b a) 0 then b :: insert a tl else a :: b :: tl
  end.

Definition sortNotes (notes : list nat) : list nat := fold_right insert [] notes.

(** The inner loop's test:
    [sortedNotes[j].startTime - currentNote.startTime < timeThreshold]. *)
Definition simultaneous (currentNote n : nat) : bool :=
  JS.lt (startTime (heap n) - startTime (heap currentNote)) timeThreshold.

(** [simultaneousNotes] after the inner loop, and the notes from index
    [j] on. *)
Definition simultaneousNotes (currentNote : nat) (rest : list nat) : list nat :=
  currentNote :: takeWhile (simultaneous currentNote) rest.

Definition afterGroup (currentNote : nat) (rest : list nat) : list nat :=
  dropWhile (simultaneous currentNote) rest.

(** [simultaneousNotes.reduce((highest, note) =>
      note.pitch > highest.pitch ? note : highest, simultaneousNotes[0])]. *)
Definition topNoteOf (group : list nat) (first : nat) : nat :=
  fold_left
    (fun highest note =>
       if JS.gt (pitch (heap note)) (pitch (heap highest)) then note else highest)
    group first.

(** [simultaneousNotes.filter(note => note !== topNote)]. *)
Definition othersOf (group : list nat) (topNote : nat) : list nat :=
  filter (fun note => negb (Nat.eqb note topNote)) group.

(** The outer [while (i < sortedNotes.length)] loop; [sortedNotes] is
    the part of the array from index [i] on, [melody] and [harmony] are
    the arrays built so far. *)
Equations? classifyLoop (sortedNotes : list nat) (melody harmony : list nat)
  : list nat * list nat by wf (length sortedNotes) lt :=
  classifyLoop [] melody harmony := (melody, harmony);
  classifyLoop (currentNote :: rest) melody harmony :=
    let group := simultaneousNotes currentNote rest in
    if Nat.eqb (length group) 1 then
      classifyLoop (afterGroup currentNote rest) (melody ++ [currentNote]) harmony
    else
      let topNote := topNoteOf group currentNote in
      classifyLoop (afterGroup currentNote rest)
                   (melody ++ [topNote]) (harmony ++ othersOf group topNote).
Proof.
  all: unfold afterGroup; generalize (simultaneous currentNote);
    clear - rest; intros p; apply PeanoNat.Nat.lt_succ_r;
    induction rest as [|n tl IH]; simpl; [lia | destruct (p n); simpl; lia].
Qed.

Definition classifyNotes (notes : list nat) : list nat * list nat :=
  match notes with
  | [] => ([], [])
  | _ => classifyLoop (sortNotes notes) [] []
  end.

(** The successive values of [simultaneousNotes], one per iteration of
    the outer loop. *)
Equations? simultaneityGroups (sortedNotes : list nat) : list (list nat)
  by wf (length sortedNotes) lt :=
  simultaneityGroups [] := [];
  simultaneityGroups (currentNote :: rest) :=
    simultaneousNotes currentNote rest
      :: simultaneityGroups (afterGroup currentNote rest).
Proof.
  unfold afterGroup; generalize (simultaneous currentNote);
    clear - rest; intros p; apply PeanoNat.Nat.lt_succ_r;
    induction rest as [|n tl IH]; simpl; [lia | destruct (p n); simpl; lia].
Qed.

(** *** Vocabulary used to state the classifier's properties *)

(** A simultaneity group in the words of the specification: the run
    after [first] holds notes that start less than the threshold after
    [first], and the note that follows the run, if any, does not. *)
Inductive GroupedByFirst : list nat -> list (list nat) -> Prop :=
| grouped_nil : GroupedByFirst [] []
| grouped_cons (first : nat) (run rest : list nat) (groups : list (list nat)) :
    Forall (fun n => startTime (heap n) - startTime (heap first) < timeThreshold)
           run ->
    (forall n tl, rest = n :: tl ->
                  timeThreshold <= startTime (heap n) - startTime (heap first)) ->
    GroupedByFirst rest groups ->
    GroupedByFirst (first :: run ++ rest) ((first :: run) :: groups).

(** Consecutive notes start at least the threshold apart. *)
Fixpoint spaced (notes : list nat) : Prop :=
  match notes with
  | a :: (b :: _) as tl =>
      timeThreshold <= startTime (heap b) - startTime (heap a) /\ spaced tl
  | _ => True
  end.

(** Consecutive notes start exactly [gap] apart. *)
Fixpoint chained (gap : JS.number) (notes : list nat) : Prop :=
  match notes with
  | a :: (b :: _) as tl =>
      startTime (heap b) - startTime (heap a) == gap /\ chained gap tl
  | _ => True
  end.

Definition byStartTime (a b : nat) : Prop :=
  startTime (heap a) <= startTime (heap b).

(** A group split around one of its members. *)
Record Split : Type := mkSplit {
  before : list nat;
  chosen : nat;
  after : list nat
}.

Definition members (s : Split) : list nat := before s ++ chosen s :: after s.

Definition remainder (s : Split) : list nat := before s ++ after s.

(** [chosen s] is the first member of highest pitch. *)
Definition firstHighest (s : Split) : Prop :=
  (forall n, In n (before s) -> pitch (heap n) < pitch (heap (chosen s)))
  /\ (forall n, In n (after s) -> pitch (heap n) <= pitch (heap (chosen s))).

End WithHeap.

(** A NoteSet given by its notes in order, every note held by an object
    of its own (as in the arrays [quantizeNotes] builds): the note at
    index [i] lives at address [i]. *)
Definition nullNote : MidiNote := mkMidiNote 0 0 0 None.

Definition heapOf (notes : list MidiNote) : nat -> MidiNote :=
  fun a => nth a notes nullNote.

Definition classifyNoteSet (notes : list MidiNote) : list MidiNote * list MidiNote :=
  let out := classifyNotes (heapOf notes) (seq 0 (length notes)) in
  (map (heapOf notes) (fst out), map (heapOf notes) (snd out)).

End Classifier.

(** ** Quantizer ([quantizeNotes], App.tsx) *)

Module Quantizer.

Definition secondsPerGridUnit (bpm : JS.number) (quantizeGrid : Quantization)
  : JS.number :=
  let secondsPerBeat := 60 / bpm in
  match quantizeGrid with
  | Q8T => secondsPerBeat / 3
  | Q16 => secondsPerBeat / 4
  end.

(** The body of the [map] callback: the note is copied ([...note]) and
    its [startTime] and [duration] are replaced. *)
Definition quantizeNote (unit : JS.number) (note : MidiNote) : MidiNote :=
  {| pitch := pitch note;
     startTime := JS.Math_round (startTime note / unit) * unit;
     duration := JS.Math_max unit (JS.Math_round (duration note / unit) * unit);
     velocity := velocity note |}.

Definition quantizeNotes (notes : list MidiNote) (bpm : JS.number)
           (quantizeGrid : Quantization) : list MidiNote :=
  map (quantizeNote (secondsPerGridUnit bpm quantizeGrid)) notes.

(** *** Vocabulary used to state the quantizer's properties *)

(** [k] is the integer nearest to [x], halves going up. *)
Definition nearestInteger (k : Z) (x : JS.number) : Prop :=
  inject_Z k - (1 # 2) <= x /\ x < inject_Z k + (1 # 2).

End Quantizer.

(** ** The arithmetic of the machine

    A [number] of the machine is an IEEE-754 binary64 value; division
    and multiplication are the correctly rounded operations of the
    Standard Library's specification of floating-point arithmetic. *)

Module Double.
Import SpecFloat.

Definition number : Type := spec_float.

Definition prec : Z := 53.
Definition emax : Z := 1024.

(** [a / b] and [a * b]. *)
Definition div (a b : number) : number := SFdiv prec emax a b.
Definition mul (a b : number) : number := SFmul prec emax a b.

(** The double nearest to the integer [k]: an integer literal. *)
Definition ofInteger (k : Z) : number := binary_normalize prec emax k 0 false.

(** The double nearest to the rational [q]: a decimal literal. *)
Definition ofQ (q : Q) : number :=
  div (ofInteger (Qnum q)) (ofInteger (Zpos (Qden q))).

(** [2 ^ p]. *)
Definition pow2 (p : positive) : positive := Pos.iter xO 1%positive p.

(** The rational a finite double stands for, [mantissa * 2 ^ e]. *)
Definition valueOf (x : number) : Q :=
  match x with
  | S754_finite s m e =>
      let mantissa := if s then Zneg m else Zpos m in
      match e with
      | Z0 => inject_Z mantissa
      | Zpos p => inject_Z (mantissa * Zpos (pow2 p))
      | Zneg p => mantissa # pow2 p
      end
  | _ => 0
  end.

(** The double of the integer [k], a zero taking the sign [s]. *)
Definition integral (s : bool) (k : Z) : number :=
  match k with
  | Z0 => S754_zero s
  | _ => ofInteger k
  end.

(** [Math.round(x)]: the integer nearest to [x], halves towards plus
    infinity; a result of zero keeps the sign of [x], and NaN, the
    infinities and the zeros are returned as they are. *)
Definition Math_round (x : number) : number :=
  match x with
  | S754_finite s _ _ => integral s (Qfloor (valueOf x + (1 # 2)))
  | _ => x
  end.

(** [Math.max(a, b)]: NaN when an argument is NaN; [+0] is larger
    than [-0]. *)
Definition Math_max (a b : number) : number :=
  match SFcompare a b with
  | None => S754_nan
  | Some Lt => b
  | Some Gt => a
  | Some Eq =>
      match a, b with
      | S754_zero true, S754_zero false => b
      | _, _ => a
      end
  end.

(** [a <= b] on numbers (false when an argument is NaN). *)
Definition le (a b : number) : bool := SFleb a b.

Definition isNaN (x : number) : Prop :=
  match x with
  | S754_nan => True
  | _ => False
  end.

End Double.

(** ** Quantizer ([quantizeNotes], App.tsx) in the arithmetic of the
    machine *)

Module Quantizer64.
Import SpecFloat Double.

(** [MidiNote] of [types.ts], its numbers being doubles. *)
Record MidiNote : Type := mkMidiNote {
  pitch : number;
  startTime : number;
  duration : number;
  velocity : option number
}.

Definition secondsPerGridUnit (bpm : number) (quantizeGrid : Quantization)
  : number :=
  let secondsPerBeat := div (ofInteger 60) bpm in
  match quantizeGrid with
  | Q8T => div secondsPerBeat (ofInteger 3)
  | Q16 => div secondsPerBeat (ofInteger 4)
  end.

(** The body of the [map] callback: the note is copied ([...note]) and
    its [startTime] and [duration] are replaced. *)
Definition quantizeNote (unit : number) (note : MidiNote) : MidiNote :=
  {| pitch := pitch note;
     startTime := mul (Math_round (div (startTime note) unit)) unit;
     duration := Math_max unit (mul (Math_round (div (duration note) unit)) unit);
     velocity := velocity note |}.

Definition quantizeNotes (notes : list MidiNote) (bpm : number)
           (quantizeGrid : Quantization) : list MidiNote :=
  map (quantizeNote (secondsPerGridUnit bpm quantizeGrid)) notes.

(** *** Vocabulary used to state the quantizer's properties *)

(** Subdivisions per beat of a grid selector. *)
Definition subdivisions (quantizeGrid : Quantization) : number :=
  match quantizeGrid with
  | Q16 => ofInteger 4
  | Q8T => ofInteger 3
  end.

(** [r] is [round(q)]: for a finite [q], the double of the integer
    nearest to the value of [q], halves going up, which stands for that
    integer when it is below [2 ^ 53] in absolute value; any other [q]
    is its own rounding. *)
Definition rounded (q r : number) : Prop :=
  match q with
  | S754_finite s _ _ =>
      exists k : Z,
        Quantizer.nearestInteger k (valueOf q)
        /\ r = integral s k
        /\ ((Z.abs k < 2 ^ 53)%Z -> valueOf r == inject_Z k)
  | _ => r = q
  end.

(** [m] is [max(a, b)]: NaN when [a] or [b] is, and otherwise one of the
    two, which neither exceeds. *)
Definition largerOf (m a b : number) : Prop :=
  (isNaN a \/ isNaN b -> m = S754_nan)
  /\ (~ isNaN a -> ~ isNaN b ->
      (m = a \/ m = b) /\ le a m = true /\ le b m = true).

(** [note'] is [note] snapped to the grid of unit [gridUnit]:
    [startTime' = round(startTime / gridUnit) * gridUnit] and
    [duration' = max(gridUnit, round(duration / gridUnit) * gridUnit)],
    pitch and velocity unchanged. *)
Definition snapped (gridUnit : number) (note note' : MidiNote) : Prop :=
  pitch note' = pitch note
  /\ velocity note' = velocity note
  /\ (exists r, rounded (div (startTime note) gridUnit) r
                /\ startTime note' = mul r gridUnit)
  /\ (exists r, rounded (div (duration note) gridUnit) r
                /\ largerOf (duration note') gridUnit (mul r gridUnit)).

End Quantizer64.

(** ** Map position of an analysis *)

Module Position.

(** [analyzeAndCreateSong] and [generateVariation] (App.tsx) both build
    [{ x: (analysis.melodicComplexity / 3) + (analysis.melodicRichness * 2 / 3),
       y: analysis.harmonicRichness }]. *)
Definition appMapPosition (analysis : Analysis) : MapPosition :=
  {| pos_x := (melodicComplexity analysis / 3) + (melodicRichness analysis * 2 / 3);
     pos_y := harmonicRichness analysis |}.

(** [processCorpus] (scripts/preprocess.ts) computes the same [xPos] and
    stores [{ x: Math.max(0, Math.min(100, xPos)), y: analysis.harmonicRichness }]. *)
Definition preprocessMapPosition (analysis : Analysis) : MapPosition :=
  let xPos := (melodicComplexity analysis / 3) + (melodicRichness analysis * 2 / 3) in
  {| pos_x := JS.Math_max 0 (JS.Math_min 100 xPos);
     pos_y := harmonicRichness analysis |}.

End Position.

(** ** The map view ([components/MusicMap.tsx]) *)

Module MusicMap.

Definition clamp (val min max : JS.number) : JS.number :=
  JS.Math_max min (JS.Math_min val max).

(** The [domain] state: [{ x: [x0, x1], y: [y0, y1] }]. *)
Record Domain : Type := mkDomain {
  dom_x : JS.number * JS.number;
  dom_y : JS.number * JS.number
}.

Definition fullDomain : Domain := mkDomain (0, 100) (0, 100).

Definition width (d : JS.number * JS.number) : JS.number := snd d - fst d.

(** What the handlers read from [chartContainerRef.current]:
    [getBoundingClientRect()] and [clientWidth] / [clientHeight]. *)
Record Container : Type := mkContainer {
  rect_left : JS.number;
  rect_top : JS.number;
  rect_width : JS.number;
  rect_height : JS.number;
  clientWidth : JS.number;
  clientHeight : JS.number
}.

(** [panStartRef.current]. *)
Record PanStart : Type := mkPanStart {
  pan_x : JS.number;
  pan_y : JS.number;
  domainX : JS.number * JS.number;
  domainY : JS.number * JS.number
}.

(** The domain [handlePanMove] passes to [setDomain]. *)
Definition panDomain (start : PanStart) (c : Container)
           (clientX clientY : JS.number) : Domain :=
  let dx := clientX - pan_x start in
  let dy := clientY - pan_y start in
  let xRange := snd (domainX start) - fst (domainX start) in
  let yRange := snd (domainY start) - fst (domainY start) in
  let xPerPixel := xRange / clientWidth c in
  let yPerPixel := yRange / clientHeight c in
  let newXMin := clamp (fst (domainX start) - dx * xPerPixel) 0 (100 - xRange) in
  let newYMin := clamp (fst (domainY start) + dy * yPerPixel) 0 (100 - yRange) in
  mkDomain (newXMin, newXMin + xRange) (newYMin, newYMin + yRange).

(** The updater [prev => ...] that [handleZoom] passes to [setDomain];
    the four [if] statements are taken in the order of the source. *)
Definition zoomDomain (factor : JS.number) (prev : Domain) : Domain :=
  let xRange := (snd (dom_x prev) - fst (dom_x prev)) * factor in
  let yRange := (snd (dom_y prev) - fst (dom_y prev)) * factor in
  let xCenter := (fst (dom_x prev) + snd (dom_x prev)) / 2 in
  let yCenter := (fst (dom_y prev) + snd (dom_y prev)) / 2 in
  let newX := (xCenter - xRange / 2, xCenter + xRange / 2) in
  let newY := (yCenter - yRange / 2, yCenter + yRange / 2) in
  let newX := if JS.lt (fst newX) 0 then (0, snd newX - fst newX) else newX in
  let newY := if JS.lt (fst newY) 0 then (0, snd newY - fst newY) else newY in
  let newX := if JS.gt (snd newX) 100
              then (fst newX - (snd newX - 100), 100) else newX in
  let newY := if JS.gt (snd newY) 100
              then (fst newY - (snd newY - 100), 100) else newY in
  mkDomain (clamp (fst newX) 0 100, clamp (snd newX) 0 100)
           (clamp (fst newY) 0 100, clamp (snd newY) 0 100).

(** The position [handleMouseMove] passes to [setTransientPosition]. *)
Definition dragPosition (domain : Domain) (c : Container)
           (clientX clientY : JS.number) : MapPosition :=
  let plotAreaX := rect_left c + 20 in
  let plotAreaY := rect_top c + 20 in
  let plotAreaWidth := rect_width c - 20 - 20 in
  let plotAreaHeight := rect_height c - 20 - 20 in
  let '(xMin, xMax) := dom_x domain in
  let '(yMin, yMax) := dom_y domain in
  let mouseX := clientX - plotAreaX in
  let mouseY := clientY - plotAreaY in
  let xValue := (mouseX / plotAreaWidth) * (xMax - xMin) + xMin in
  let yValue := ((plotAreaHeight - mouseY) / plotAreaHeight) * (yMax - yMin) + yMin in
  {| pos_x := clamp xValue 0 100; pos_y := clamp yValue 0 100 |}.

(** *** The component as a state machine

    State: the [useState] cells and refs the handlers use.  Every
    handler runs against the state left by the previous one (React has
    committed the pending updates and re-run the effects before the
    next event is handled). *)
Record State : Type := mkState {
  isDragging : bool;
  transientPosition : option MapPosition;
  didDragRef : bool;
  domain : Domain;
  isPanning : bool;
  panStartRef : option PanStart
}.

Definition initialState : State :=
  mkState false None false fullDomain false None.

(** What a handler sees of the props and of the DOM:
    [activeUserMelody?.mapPosition], [isDraggable] and
    [chartContainerRef.current]. *)
Record View : Type := mkView {
  activeMapPosition : option MapPosition;
  isDraggable : bool;
  chartContainer : option Container
}.

Inductive Event : Type :=
| MouseDownOnUserMelody (clientX clientY : JS.number)
    (* a press on the user's point: the cell's [onMouseDown], which is
       [handleMouseDownOnUserMelody], and then, the event bubbling, the
       container's [onMouseDown] *)
| MouseDownOnPlot (clientX clientY : JS.number)
    (* a press anywhere else on the chart surface: the container's
       [onMouseDown] alone *)
| MouseMove (clientX clientY : JS.number)   (* window [mousemove] *)
| MouseUp                                   (* window [mouseup] *)
| Zoom (factor : JS.number)                 (* [handleZoom] *)
| ResetZoom                                 (* [handleResetZoom] *)
| ClickOnNode (id : String.string)                 (* a cell's [onClick] *)
| GenerationSettled
    (* the effect on [isGeneratingVariation] when it is false *).

(** The calls made to the parent's callbacks. *)
Inductive Callback : Type :=
| onUserMelodyMove (newPosition : MapPosition)
| onNodeClick (id : String.string).

(** [handleMouseDownOnUserMelody]. *)
Definition handleMouseDownOnUserMelody (v : View) (s : State) : State :=
  match activeMapPosition v with
  | Some mapPosition =>
      if isDraggable v then
        mkState true (Some mapPosition) false (domain s)
                (isPanning s) (panStartRef s)
      else s
  | None => s
  end.

(** [handleMouseMove]; the listener exists only while [isDragging]. *)
Definition handleMouseMove (v : View) (s : State) (clientX clientY : JS.number)
  : State :=
  match isDragging s, chartContainer v with
  | true, Some c =>
      mkState (isDragging s)
              (Some (dragPosition (domain s) c clientX clientY))
              true (domain s) (isPanning s) (panStartRef s)
  | _, _ => s
  end.

(** [handleMouseUp]; the listener exists only while [isDragging]. *)
Definition handleMouseUp (s : State) : State * list Callback :=
  if isDragging s then
    (mkState false (transientPosition s) (didDragRef s) (domain s)
             (isPanning s) (panStartRef s),
     match transientPosition s, didDragRef s with
     | Some p, true => [onUserMelodyMove p]
     | _, _ => []
     end)
  else (s, []).

(** The container's [onMouseDown], for a target inside the chart surface
    ([closest('.recharts-surface')] finds it).  The second test of the
    guard, [!closest('.recharts-cell')], holds for every target: the
    points are drawn with the class names [cursor-grab] and
    [cursor-pointer] that the component gives its cells, and nothing in
    the component carries the class [recharts-cell].  So a press on a
    point starts a pan as well. *)
Definition onMouseDown (s : State) (clientX clientY : JS.number) : State :=
  mkState (isDragging s) (transientPosition s) (didDragRef s) (domain s)
          true
          (Some (mkPanStart clientX clientY (dom_x (domain s)) (dom_y (domain s)))).

(** [handlePanMove]; the listener exists only while [isPanning]. *)
Definition handlePanMove (v : View) (s : State) (clientX clientY : JS.number)
  : State :=
  match isPanning s, panStartRef s, chartContainer v with
  | true, Some start, Some c =>
      mkState (isDragging s) (transientPosition s) (didDragRef s)
              (panDomain start c clientX clientY)
              (isPanning s) (panStartRef s)
  | _, _, _ => s
  end.

(** [handlePanUp]; the listener exists only while [isPanning]. *)
Definition handlePanUp (s : State) : State :=
  if isPanning s then
    mkState (isDragging s) (transientPosition s) (didDragRef s) (domain s)
            false None
  else s.

(** [handleZoom]. *)
Definition handleZoom (factor : JS.number) (s : State) : State :=
  mkState (isDragging s) (transientPosition s) (didDragRef s)
          (zoomDomain factor (domain s)) (isPanning s) (panStartRef s).

(** [handleResetZoom]. *)
Definition handleResetZoom (s : State) : State :=
  mkState (isDragging s) (transientPosition s) (didDragRef s)
          fullDomain (isPanning s) (panStartRef s).

(** A cell's [onClick]:
    [if (didDragRef.current) return; onNodeClick(entry.id);]. *)
Definition onClick (s : State) (id : String.string) : list Callback :=
  if didDragRef s then [] else [onNodeClick id].

(** One event: the next state and the callbacks called.  A press on the
    user's point runs the cell's handler and then the container's (no
    handler stops the propagation).  A window [mousemove] or [mouseup]
    reaches the listeners of both effects; each reads the state of the
    last render, and the two write different cells: during a drag
    [handleMouseMove] computes the position from the domain of the last
    render while [handlePanMove] replaces that domain. *)
Definition step (v : View) (s : State) (e : Event) : State * list Callback :=
  match e with
  | MouseDownOnUserMelody clientX clientY =>
      (onMouseDown (handleMouseDownOnUserMelody v s) clientX clientY, [])
  | MouseDownOnPlot clientX clientY => (onMouseDown s clientX clientY, [])
  | MouseMove clientX clientY =>
      (handlePanMove v (handleMouseMove v s clientX clientY) clientX clientY, [])
  | MouseUp =>
      (handlePanUp (fst (handleMouseUp s)), snd (handleMouseUp s))
  | Zoom factor => (handleZoom factor s, [])
  | ResetZoom => (handleResetZoom s, [])
  | ClickOnNode id => (s, onClick s id)
  | GenerationSettled =>
      (mkState (isDragging s) None (didDragRef s) (domain s)
               (isPanning s) (panStartRef s), [])
  end.

(** A run of handler invocations, each with the view it had; the
    callbacks called are collected in order. *)
Fixpoint run (s : State) (trace : list (View * Event)) : State * list Callback :=
  match trace with
  | [] => (s, [])
  | (v, e) :: rest =>
      let '(s1, out1) := step v s e in
      let '(s2, out2) := run s1 rest in
      (s2, out1 ++ out2)
  end.

(** *** Vocabulary used to state the view's properties *)

(** An axis range inside [[0, 100]] with [min <= max]. *)
Definition inside (d : JS.number * JS.number) : Prop :=
  0 <= fst d /\ fst d <= snd d /\ snd d <= 100.

Definition validDomain (d : Domain) : Prop :=
  inside (dom_x d) /\ inside (dom_y d).

(** Two axis ranges with equal bounds. *)
Definition sameRange (d e : JS.number * JS.number) : Prop :=
  fst d == fst e /\ snd d == snd e.

(** What [handleZoom] does to one axis, read off [zoomDomain]. *)
Definition zoomAxis (factor : JS.number) (prev : JS.number * JS.number)
  : JS.number * JS.number :=
  let range := (snd prev - fst prev) * factor in
  let center := (fst prev + snd prev) / 2 in
  let new := (center - range / 2, center + range / 2) in
  let new := if JS.lt (fst new) 0 then (0, snd new - fst new) else new in
  let new := if JS.gt (snd new) 100
             then (fst new - (snd new - 100), 100) else new in
  (clamp (fst new) 0 100, clamp (snd new) 0 100).

(** [next] is [prev] scaled by [factor] about its center and moved back
    inside [[0, 100]] when the scaled range fits, and the full range
    when it does not. *)
Definition zoomedAxis (factor : JS.number) (prev next : JS.number * JS.number)
  : Prop :=
  let range := width prev * factor in
  let center := (fst prev + snd prev) / 2 in
  (range <= 100 ->
   width next == range
   /\ (0 <= center - range / 2 -> center + range / 2 <= 100 ->
       sameRange next (center - range / 2, center + range / 2))
   /\ (center - range / 2 < 0 -> sameRange next (0, range))
   /\ (0 <= center - range / 2 -> 100 < center + range / 2 ->
       sameRange next (100 - range, 100)))
  /\ (100 < range -> sameRange next (0, 100)).

(** A position inside the square [[0, 100] x [0, 100]]. *)
Definition inSquare (p : MapPosition) : Prop :=
  (0 <= pos_x p /\ pos_x p <= 100) /\ (0 <= pos_y p /\ pos_y p <= 100).

(** The container has a plot area and a client area of non-zero size,
    so that the divisions of the handlers are divisions of numbers by
    non-zero numbers. *)
Definition nonEmpty (c : Container) : Prop :=
  0 < rect_width c - 20 - 20 /\ 0 < rect_height c - 20 - 20
  /\ 0 < clientWidth c /\ 0 < clientHeight c.

Definition wellFormed (v : View) : Prop :=
  match chartContainer v with
  | Some c => nonEmpty c
  | None => True
  end.

(** No gesture is in progress. *)
Definition idle (s : State) : Prop :=
  isDragging s = false /\ isPanning s = false.

(** Whenever a move has been seen since the last pointer-down, the live
    position is inside the square. *)
Definition liveInSquare (s : State) : Prop :=
  didDragRef s = true ->
  forall p, transientPosition s = Some p -> inSquare p.

(** A sequence of window [mousemove] events under one view. *)
Definition moves (v : View) (points : list (JS.number * JS.number))
  : list (View * Event) :=
  map (fun xy => (v, MouseMove (fst xy) (snd xy))) points.

(** The domain on screen after a press at [(x0, y0)] on a view showing
    [d] and the pointer positions [earlier]: [d] itself before any move,
    and after that the domain panned from [d] to the last position. *)
Definition domainShown (d : Domain) (c : Container) (x0 y0 : JS.number)
           (earlier : list (JS.number * JS.number)) : Domain :=
  match rev earlier with
  | [] => d
  | xy :: _ => panDomain (mkPanStart x0 y0 (dom_x d) (dom_y d)) c (fst xy) (snd xy)
  end.

(** A press on the user's point. *)
Definition isPressOnUserMelody (e : Event) : Prop :=
  match e with
  | MouseDownOnUserMelody _ _ => True
  | _ => False
  end.

End MusicMap.

(** ** Sample inputs of the specification's examples *)

Module Samples.

Definition noteAt (p s : JS.number) : MidiNote := mkMidiNote p s 1 None.

(** [[{pitch:60,start:0}, {pitch:64,start:0.01}, {pitch:67,start:0.015}]] *)
Definition chord : list MidiNote :=
  [noteAt 60 0; noteAt 64 (1 # 100); noteAt 67 (15 # 1000)].

(** Three notes, each 15 milliseconds after the previous one. *)
Definition chain : list MidiNote :=
  [noteAt 60 0; noteAt 64 (15 # 1000); noteAt 67 (30 # 1000)].

(** A mounted chart container of 840 by 640 pixels, and a view in which
    the user's point is draggable and stored outside the square. *)
Definition container : MusicMap.Container :=
  MusicMap.mkContainer 0 0 840 640 840 640.

Definition view : MusicMap.View :=
  MusicMap.mkView (Some (mkMapPosition 150 (-20))) true (Some container).

Definition dragTrace : list (MusicMap.View * MusicMap.Event) :=
  [(view, MusicMap.MouseDownOnUserMelody 380 310);
   (view, MusicMap.MouseMove 400 300);
   (view, MusicMap.MouseMove 2000 170);
   (view, MusicMap.MouseUp)].

(** The component at rest after one click on the zoom-in button: both
    axes show [[10, 90]]. *)
Definition zoomed : MusicMap.State :=
  MusicMap.mkState false None false (MusicMap.mkDomain (10, 90) (10, 90))
                   false None.

(** Three notes starting 20 and 30 milliseconds apart. *)
Definition line : list MidiNote :=
  [noteAt 60 0; noteAt 62 (2 # 100); noteAt 64 (5 # 100)].

End Samples.

(** ** The recorder hook ([hooks/useMidiRecorder.ts])

    Pitches reach the hook as MIDI data bytes or as the key numbers of
    the virtual piano: they are integers.  Times are the values of
    [performance.now()], in milliseconds, given with each event. *)

Module Recorder.

Inductive RecordingState : Type := Idle | Precount | Recording | Processing.

Definition isRecording (r : RecordingState) : bool :=
  match r with
  | Recording => true
  | _ => false
  end.

Record NoteOnData : Type := mkNoteOnData {
  on_startTime : JS.number;
  on_velocity : JS.number
}.

(** [Map<number, { startTime, velocity }>]: the entries in insertion
    order, which is the order [forEach] visits them in. *)
Definition NoteMap : Type := list (Z * NoteOnData).

Fixpoint map_get (m : NoteMap) (key : Z) : option NoteOnData :=
  match m with
  | [] => None
  | (k, v) :: tl => if Z.eqb k key then Some v else map_get tl key
  end.

(** [set] replaces the value of a key that is present, in place, and
    appends a new key. *)
Fixpoint map_set (m : NoteMap) (key : Z) (value : NoteOnData) : NoteMap :=
  match m with
  | [] => [(key, value)]
  | (k, v) :: tl =>
      if Z.eqb k key then (k, value) :: tl else (k, v) :: map_set tl key value
  end.

Fixpoint map_delete (m : NoteMap) (key : Z) : NoteMap :=
  match m with
  | [] => []
  | (k, v) :: tl => if Z.eqb k key then tl else (k, v) :: map_delete tl key
  end.

Record State : Type := mkState {
  recordingState : RecordingState;
  activeNotes : NoteMap;
  recordedNotes : list MidiNote;
  recordingStartTime : JS.number
}.

Definition initialState : State := mkState Idle [] [] 0.

(** The calls made to the hook's callbacks. *)
Inductive Callback : Type :=
| onNoteOn (pitch : Z)
| onNoteOff (pitch : Z)
| onRecordingComplete (notes : list MidiNote).

(** The note pushed on [recordedNotes] by [noteOff] and [stopRecording]. *)
Definition finishedNote (recordingStart : JS.number) (pitch : Z)
           (noteOnData : NoteOnData) (noteOffTime : JS.number) : MidiNote :=
  let startTimeInSeconds := (on_startTime noteOnData - recordingStart) / 1000 in
  let durationInSeconds := (noteOffTime - on_startTime noteOnData) / 1000 in
  {| pitch := inject_Z pitch;
     startTime := startTimeInSeconds;
     duration := durationInSeconds;
     velocity := Some (on_velocity noteOnData) |}.

(** [noteOn]; [now] is the value of [performance.now()]. *)
Definition noteOn (s : State) (pitch : Z) (velocity now : JS.number)
  : State * list Callback :=
  (if isRecording (recordingState s) then
     mkState (recordingState s)
             (map_set (activeNotes s) pitch (mkNoteOnData now velocity))
             (recordedNotes s) (recordingStartTime s)
   else s,
   [onNoteOn pitch]).

(** [noteOff]. *)
Definition noteOff (s : State) (pitch : Z) (now : JS.number)
  : State * list Callback :=
  (if isRecording (recordingState s) then
     match map_get (activeNotes s) pitch with
     | Some noteOnData =>
         mkState (recordingState s)
                 (map_delete (activeNotes s) pitch)
                 (recordedNotes s
                    ++ [finishedNote (recordingStartTime s) pitch noteOnData now])
                 (recordingStartTime s)
     | None => s
     end
   else s,
   [onNoteOff pitch]).

(** [manualNoteOn] and [manualNoteOff], used by the virtual piano. *)
Definition manualNoteOn (s : State) (pitch : Z) (now : JS.number)
  : State * list Callback :=
  noteOn s pitch (9 # 10) now.

Definition manualNoteOff (s : State) (pitch : Z) (now : JS.number)
  : State * list Callback :=
  noteOff s pitch now.

(** [startRecording]. *)
Definition startRecording (s : State) (now : JS.number) : State :=
  mkState Recording [] [] now.

(** The [forEach] of [stopRecording] over the notes still held: the
    [i]-th visit reads the time [clock i], pushes the note and calls
    [onNoteOff]. *)
Fixpoint finalize (recordingStart : JS.number) (clock : nat -> JS.number)
         (i : nat) (held : NoteMap) (recorded : list MidiNote)
  : list MidiNote * list Callback :=
  match held with
  | [] => (recorded, [])
  | (pitch, noteOnData) :: tl =>
      let out :=
        finalize recordingStart clock (S i) tl
                 (recorded
                    ++ [finishedNote recordingStart pitch noteOnData (clock i)]) in
      (fst out, onNoteOff pitch :: snd out)
  end.

(** [stopRecording]. *)
Definition stopRecording (s : State) (clock : nat -> JS.number)
  : State * list Callback :=
  let out := finalize (recordingStartTime s) clock 0 (activeNotes s)
                      (recordedNotes s) in
  (mkState Processing [] (fst out) (recordingStartTime s),
   snd out ++ [onRecordingComplete (fst out)]).

(** What [handleMidiMessage] does with a message. *)
Inductive MidiAction : Type :=
| callNoteOn (pitch : option Z) (velocity : JS.number)
| callNoteOff (pitch : option Z)
| noAction.

(** [handleMidiMessage]: [data] is [event.data], a byte array; a byte
    that is missing reads as [undefined], which [>>] turns into 0 and
    which is kept as [None] for the pitch. *)
Definition handleMidiMessage (data : list Z) : MidiAction :=
  let command := Z.shiftr (nth 0 data 0%Z) 4 in
  let pitch := nth_error data 1 in
  let velocity := if Nat.ltb 2 (length data) then nth 2 data 0%Z else 1%Z in
  if Z.eqb command 9 && Z.ltb 0 velocity then
    callNoteOn pitch (inject_Z velocity / 127)
  else if Z.eqb command 8 || (Z.eqb command 9 && Z.eqb velocity 0) then
    callNoteOff pitch
  else noAction.

Inductive Event : Type :=
| NoteOn (pitch : Z) (velocity now : JS.number)
| NoteOff (pitch : Z) (now : JS.number)
| StartRecording (now : JS.number)
| StopRecording (clock : nat -> JS.number)
| ProcessingTimeout
    (* the [setTimeout] callback of [stopRecording]: back to [Idle] *).

Definition step (s : State) (e : Event) : State * list Callback :=
  match e with
  | NoteOn pitch velocity now => noteOn s pitch velocity now
  | NoteOff pitch now => noteOff s pitch now
  | StartRecording now => (startRecording s now, [])
  | StopRecording clock => stopRecording s clock
  | ProcessingTimeout =>
      (mkState Idle (activeNotes s) (recordedNotes s) (recordingStartTime s), [])
  end.

Fixpoint run (s : State) (trace : list Event) : State * list Callback :=
  match trace with
  | [] => (s, [])
  | e :: rest =>
      let '(s1, out1) := step s e in
      let '(s2, out2) := run s1 rest in
      (s2, out1 ++ out2)
  end.

(** *** Vocabulary used to state the recorder's properties *)

(** The clock never runs backwards: every time read by the events of a
    trace is at least [t] and at least the times read before it. *)
Fixpoint timed (t : JS.number) (trace : list Event) : Prop :=
  match trace with
  | [] => True
  | NoteOn _ _ now :: rest => t <= now /\ timed now rest
  | NoteOff _ now :: rest => t <= now /\ timed now rest
  | StartRecording now :: rest => t <= now /\ timed now rest
  | StopRecording clock :: rest => (forall i, t <= clock i) /\ timed t rest
  | ProcessingTimeout :: rest => timed t rest
  end.

Definition nonNegative (note : MidiNote) : Prop :=
  0 <= startTime note /\ 0 <= duration note.

(** The recorded notes are non-negative, a running recording started no
    later than [t], and every held note was pressed between the start of
    the recording and [t]. *)
Definition wellTimed (t : JS.number) (s : State) : Prop :=
  Forall nonNegative (recordedNotes s)
  /\ (isRecording (recordingState s) = true -> recordingStartTime s <= t)
  /\ (forall key d, In (key, d) (activeNotes s) ->
                    recordingStartTime s <= on_startTime d /\ on_startTime d <= t).

Definition deliveredNonNegative (c : Callback) : Prop :=
  match c with
  | onRecordingComplete notes => Forall nonNegative notes
  | _ => True
  end.

(** The pitches of the note-on events of a trace. *)
Fixpoint pressed (trace : list Event) : list Z :=
  match trace with
  | [] => []
  | NoteOn pitch _ _ :: rest => pitch :: pressed rest
  | _ :: rest => pressed rest
  end.

(** Only key events. *)
Definition isKeyEvent (e : Event) : Prop :=
  match e with
  | NoteOn _ _ _ | NoteOff _ _ => True
  | _ => False
  end.

(** The feedback a key event owes the listener, whatever the state of
    the recorder: [onNoteOn] with the pitch pressed, [onNoteOff] with
    the pitch released. *)
Definition feedback (e : Event) : list Callback :=
  match e with
  | NoteOn pitch _ _ => [onNoteOn pitch]
  | NoteOff pitch _ => [onNoteOff pitch]
  | _ => []
  end.

(** The notes handed to [onRecordingComplete], last call. *)
Fixpoint delivered (out : list Callback) : option (list MidiNote) :=
  match out with
  | [] => None
  | onRecordingComplete notes :: rest =>
      match delivered rest with
      | Some later => Some later
      | None => Some notes
      end
  | _ :: rest => delivered rest
  end.

End Recorder.

(** ** The analysis service ([services/geminiService.ts]) *)

Module Service.

(** [totalDuration] of [analyzeMidi]:
    [allNotes.length > 0
       ? allNotes.reduce((max, note) =>
           Math.max(max, note.startTime + note.duration), 0)
       : 0]. *)
Definition totalDuration (allNotes : list MidiNote) : JS.number :=
  if Nat.ltb 0 (length allNotes) then
    fold_left (fun max note => JS.Math_max max (startTime note + duration note))
              allNotes 0
  else 0.

(** The correction [analyzeMidi] applies to the parsed reply:
    [if (chordChanges > 1 && totalDuration > 0 && harmonicRichness < 5)
       harmonicRichness = Math.max(harmonicRichness, 5)].
    [chordChanges] is the reply's field of that name, given apart from
    the three scores. *)
Definition correctAnalysis (chordChanges : JS.number) (total : JS.number)
           (analysisResult : Analysis) : Analysis :=
  if JS.gt chordChanges 1 && JS.gt total 0
     && JS.lt (harmonicRichness analysisResult) 5 then
    mkAnalysis (melodicComplexity analysisResult)
               (JS.Math_max (harmonicRichness analysisResult) 5)
               (melodicRichness analysisResult)
  else analysisResult.

(** What [analyzeMidi] returns for a melody, a harmony and a parsed
    reply. *)
Definition analyzeMidiResult (melody harmony : list MidiNote)
           (chordChanges : JS.number) (reply : Analysis) : Analysis :=
  correctAnalysis chordChanges (totalDuration (melody ++ harmony)) reply.

End Service.

(** ** The player hook ([hooks/useMidiPlayer.ts]) *)

Module Player.

(** [Math.max(...values)] on a non-empty list. *)
Definition Math_max_of (first : JS.number) (others : list JS.number) : JS.number :=
  fold_left JS.Math_max others first.

(** [totalDuration] of [play]:
    [allNotes.length > 0
       ? Math.max(...allNotes.map(n => n.startTime + n.duration)) : 0]. *)
Definition totalDuration (allNotes : list MidiNote) : JS.number :=
  match map (fun n => startTime n + duration n) allNotes with
  | [] => 0
  | first :: others => Math_max_of first others
  end.

(** The transport time at which [play] schedules the stop. *)
Definition stopTime (melody harmony : list MidiNote) : JS.number :=
  totalDuration (melody ++ harmony) + (2 # 10).

End Player.

(** ** Songs on the map ([App.tsx], [components/MusicMap.tsx]) *)

Module LiteralIds.
Import String.
Local Open Scope string_scope.

(** The reserved identifier of the user's melody. *)
Definition userMelody : string := "user-melody".

(** The message of the error the service throws when it has no client. *)
Definition notInitialized : string :=
  "Gemini AI service is not initialized. Please check your API key configuration.".

End LiteralIds.

Module Songs.

(** [Song] of [types.ts]. *)
Record Song : Type := mkSong {
  id : String.string;
  name : String.string;
  melody : list MidiNote;
  harmony : list MidiNote;
  analysis : option Analysis;
  mapPosition : option MapPosition;
  globalMapPosition : option MapPosition
}.

(** An entry of the positions [analyzeCorpusGlobally] returns. *)
Record Placement : Type := mkPlacement {
  placed_id : String.string;
  placed_x : JS.number;
  placed_y : JS.number
}.

Definition isSome {A : Type} (o : option A) : bool :=
  match o with
  | Some _ => true
  | None => false
  end.

(** What the promise of an [async] function of the service settles to:
    the value it resolves to, or the error it rejects with. *)
Inductive Outcome (A : Type) : Type :=
| Resolved (value : A)
| Rejected (message : String.string).

Arguments Resolved {A} value.
Arguments Rejected {A} message.

(** The module variable [genAI] of the service: [null] when no API key
    is configured; otherwise the client, taken here as what generating
    and parsing the reply to the prompt built from the given songs
    settles to (the request and [JSON.parse] may fail). *)
Definition Client : Type := list Song -> Outcome (list Placement).

(** [analyzeCorpusGlobally]: it throws when the service has no client;
    with a client, the model is consulted only when at least two songs
    have an analysis. *)
Definition analyzeCorpusGlobally (genAI : option Client) (songs : list Song)
  : Outcome (list Placement) :=
  match genAI with
  | None => Rejected LiteralIds.notInitialized
  | Some client =>
      let songsForPrompt := filter (fun s => isSome (analysis s)) songs in
      if Nat.ltb (length songsForPrompt) 2 then Resolved []
      else client songsForPrompt
  end.

(** [updatedSongs] of [handleMapModeChange]:
    [songs.map(song => { const pos = positions.find(p => p.id === song.id);
       return pos ? { ...song, globalMapPosition: { x: pos.x, y: pos.y } } : song; })]. *)
Definition updatedSongs (songs : list Song) (positions : list Placement)
  : list Song :=
  map (fun song =>
         match find (fun p => String.eqb (placed_id p) (id song)) positions with
         | Some pos =>
             mkSong (id song) (name song) (melody song) (harmony song)
                    (analysis song) (mapPosition song)
                    (Some (mkMapPosition (placed_x pos) (placed_y pos)))
         | None => song
         end)
      songs.

Inductive MapMode : Type := individual | global | synthesis.

(** What [handleMapModeChange] leaves in the state cells [songs] and
    [globalAnalysisRun]: the analysis runs when the new mode needs it
    and it has not run yet; when it resolves the merged songs are stored
    and the flag is set, and when it rejects the [catch] block only
    reports the error. *)
Definition handleMapModeChange (genAI : option Client) (newMode : MapMode)
           (songs : list Song) (globalAnalysisRun : bool) : list Song * bool :=
  match newMode with
  | global | synthesis =>
      if globalAnalysisRun then (songs, globalAnalysisRun)
      else
        match analyzeCorpusGlobally genAI songs with
        | Resolved positions => (updatedSongs songs positions, true)
        | Rejected _ => (songs, globalAnalysisRun)
        end
  | individual => (songs, globalAnalysisRun)
  end.

(** [{ ...s, mapPosition: s.globalMapPosition! }]. *)
Definition atGlobalPosition (s : Song) : Song :=
  mkSong (id s) (name s) (melody s) (harmony s) (analysis s)
         (globalMapPosition s) (globalMapPosition s).

(** [songsForMap] and [userMelodyForMap] of [App]. *)
Definition songsForMap (mapMode : MapMode) (songs userMelodyHistory : list Song)
  : list Song :=
  let allCorpusAndHistorySongs := songs ++ userMelodyHistory in
  match mapMode with
  | individual => allCorpusAndHistorySongs
  | global | synthesis =>
      map atGlobalPosition
          (filter (fun s => isSome (globalMapPosition s)) allCorpusAndHistorySongs)
  end.

Definition userMelodyForMap (mapMode : MapMode) (userMelody : option Song)
  : option Song :=
  match mapMode with
  | individual => userMelody
  | global => None
  | synthesis =>
      match userMelody with
      | Some um =>
          if isSome (globalMapPosition um) then
            Some (mkSong (id um) (name um) (melody um) (harmony um) (analysis um)
                         (globalMapPosition um) (globalMapPosition um))
          else None
      | None => None
      end
  end.

(** The [isDraggable] prop [App] passes to the map. *)
Definition isDraggableProp (mapMode : MapMode) (userMelody : option Song) : bool :=
  match mapMode with
  | synthesis | individual => isSome userMelody
  | global => false
  end.

(** A point of the scatter chart. *)
Record Point : Type := mkPoint {
  pt_x : JS.number;
  pt_y : JS.number;
  pt_name : String.string;
  pt_id : String.string;
  pt_z : JS.number
}.

Definition userMelodyId : String.string := LiteralIds.userMelody.

(** [data] of [MusicMap]. *)
Definition data (songs : list Song) (activeUserMelody : option Song)
           (transientPosition : option MapPosition) : list Point :=
  let all := match activeUserMelody with
             | Some um => songs ++ [um]
             | None => songs
             end in
  flat_map
    (fun s =>
       match mapPosition s with
       | None => []
       | Some p =>
           match String.eqb (id s) userMelodyId, transientPosition with
           | true, Some t => [mkPoint (pos_x t) (pos_y t) (name s) (id s) (15 # 10)]
           | _, _ => [mkPoint (pos_x p) (pos_y p) (name s) (id s) 1]
           end
       end)
    all.

(** *** Vocabulary used to state the properties of the map's songs *)

(** What [updatedSongs] makes of one song: everything but the global
    position is kept, a song the positions do not mention is kept whole,
    and a song they mention gets the first position with its id. *)
Definition placedAs (positions : list Placement) (song song' : Song) : Prop :=
  id song' = id song /\ name song' = name song
  /\ melody song' = melody song /\ harmony song' = harmony song
  /\ analysis song' = analysis song /\ mapPosition song' = mapPosition song
  /\ (~ In (id song) (map placed_id positions) -> song' = song)
  /\ (forall before pos after,
         positions = before ++ pos :: after ->
         placed_id pos = id song ->
         ~ In (id song) (map placed_id before) ->
         globalMapPosition song'
         = Some (mkMapPosition (placed_x pos) (placed_y pos))).

(** The corpus and history songs that have a global position. *)
Definition shownGlobally (songs userMelodyHistory : list Song) : list Song :=
  filter (fun s => isSome (globalMapPosition s)) (songs ++ userMelodyHistory).

Definition positionOf (p : Point) : MapPosition :=
  mkMapPosition (pt_x p) (pt_y p).

Definition isUserPoint (p : Point) : bool := String.eqb (pt_id p) userMelodyId.

(** The view [MusicMap] gets from [App], given the chart container. *)
Definition viewOf (mapMode : MapMode) (userMelody : option Song)
           (container : option MusicMap.Container) : MusicMap.View :=
  MusicMap.mkView
    match userMelodyForMap mapMode userMelody with
    | Some um => mapPosition um
    | None => None
    end
    (isDraggableProp mapMode userMelody)
    container.

End Songs.

(** Sample songs. *)
Module SongSamples.

(** An analysed song without a global position. *)
Definition solo : Songs.Song :=
  Songs.mkSong LiteralIds.userMelody LiteralIds.userMelody [] []
               (Some (mkAnalysis 10 20 30)) (Some (mkMapPosition 10 20)) None.

(** A song placed on both maps. *)
Definition placed : Songs.Song :=
  Songs.mkSong String.EmptyString String.EmptyString [] [] None
               (Some (mkMapPosition 10 20)) (Some (mkMapPosition 70 80)).

End SongSamples.

(** ** The note pipeline of [analyzeAndCreateSong] ([App.tsx]) *)

Module Pipeline.

(** [classifyNotes(quantizeNotes(rawNotes, bpm, quantization))]: the
    quantized notes are fresh objects, one per note. *)
Definition quantizeAndClassify (rawNotes : list MidiNote) (bpm : JS.number)
           (quantization : Quantization) : list MidiNote * list MidiNote :=
  Classifier.classifyNoteSet (Quantizer.quantizeNotes rawNotes bpm quantization).

(** A time on the grid: an integer multiple of the unit. *)
Definition onGrid (unit t : JS.number) : Prop :=
  exists k : Z, t = inject_Z k * unit.

End Pipeline.

(** ** Vocabulary for the gestures of the map view *)

Module Gestures.

(** The pointer is over the plot area of the container. *)
Definition overPlot (c : MusicMap.Container) (clientX clientY : JS.number) : Prop :=
  MusicMap.rect_left c + 20 <= clientX
  /\ clientX <= MusicMap.rect_left c + 20 + (MusicMap.rect_width c - 20 - 20)
  /\ MusicMap.rect_top c + 20 <= clientY
  /\ clientY <= MusicMap.rect_top c + 20 + (MusicMap.rect_height c - 20 - 20).

(** A zoom event has a factor above zero (the buttons pass 0.8 and
    1.25). *)
Definition zoomsIn (e : MusicMap.Event) : Prop :=
  match e with
  | MusicMap.Zoom factor => 0 < factor
  | _ => True
  end.

(** The user's point cannot be dragged in this view. *)
Definition notDraggable (v : MusicMap.View) : Prop :=
  MusicMap.isDraggable v = false \/ MusicMap.activeMapPosition v = None.

Definition isNodeClick (c : MusicMap.Callback) : Prop :=
  match c with
  | MusicMap.onNodeClick _ => True
  | _ => False
  end.

Definition isVariationRequest (c : MusicMap.Callback) : Prop :=
  match c with
  | MusicMap.onUserMelodyMove _ => True
  | _ => False
  end.

(** The stored pan start holds ranges inside [[0, 100]]. *)
Definition validPanStart (s : MusicMap.State) : Prop :=
  match MusicMap.panStartRef s with
  | Some start =>
      MusicMap.inside (MusicMap.domainX start)
      /\ MusicMap.inside (MusicMap.domainY start)
  | None => True
  end.

End Gestures.

(** * Properties *)

(** ** Facts about the number model *)

Section NumberFacts.

Lemma lt_true (a b : Q) : JS.lt a b = true <-> a < b.
Proof.
  unfold JS.lt. rewrite negb_true_iff.
  destruct (Qle_bool b a) eqn:E.
  - apply Qle_bool_iff in E. split; [discriminate | intros H; lra].
  - split; [intros _ | reflexivity].
    apply Qnot_le_lt. intros H. apply Qle_bool_iff in H. congruence.
Qed.

Lemma lt_false (a b : Q) : JS.lt a b = false <-> b <= a.
Proof.
  destruct (JS.lt a b) eqn:E.
  - apply lt_true in E. split; [discriminate | intros H; lra].
  - split; [intros _ | reflexivity].
    apply Qnot_lt_le. intros H. apply lt_true in H. congruence.
Qed.

Lemma Math_max_cases (a b : Q) :
  (a < b /\ JS.Math_max a b = b) \/ (b <= a /\ JS.Math_max a b = a).
Proof.
  unfold JS.Math_max. destruct (JS.lt a b) eqn:E.
  - left. apply lt_true in E. now split.
  - right. apply lt_false in E. now split.
Qed.

Lemma Math_min_cases (a b : Q) :
  (b < a /\ JS.Math_min a b = b) \/ (a <= b /\ JS.Math_min a b = a).
Proof.
  unfold JS.Math_min. destruct (JS.lt b a) eqn:E.
  - left. apply lt_true in E. now split.
  - right. apply lt_false in E. now split.
Qed.

Lemma clamp_cases (v lo hi : Q) :
  lo <= hi ->
  (v <= lo /\ MusicMap.clamp v lo hi == lo)
  \/ (hi <= v /\ MusicMap.clamp v lo hi == hi)
  \/ (lo <= v <= hi /\ MusicMap.clamp v lo hi == v).
Proof.
  intros Hlh. unfold MusicMap.clamp.
  destruct (Math_min_cases v hi) as [[H1 ->]|[H1 ->]].
  - destruct (Math_max_cases lo hi) as [[H2 ->]|[H2 ->]].
    + right; left. split; lra.
    + right; left. split; lra.
  - destruct (Math_max_cases lo v) as [[H2 ->]|[H2 ->]].
    + right; right. split; lra.
    + left. split; lra.
Qed.

Lemma clamp_range (v lo hi : Q) :
  lo <= hi -> lo <= MusicMap.clamp v lo hi <= hi.
Proof.
  intros Hlh.
  destruct (clamp_cases v lo hi Hlh) as [[H E]|[[H E]|[H E]]]; rewrite E; lra.
Qed.


End NumberFacts.

(** ** Facts about the scanning helpers *)

Section ScanFacts.
Context {A : Type} (p : A -> bool).

Lemma takeWhile_dropWhile (l : list A) : takeWhile p l ++ dropWhile p l = l.
Proof.
  induction l as [|x tl IH]; simpl; [reflexivity|].
  destruct (p x); simpl; [now rewrite IH | reflexivity].
Qed.

Lemma dropWhile_length (l : list A) : (length (dropWhile p l) <= length l)%nat.
Proof.
  induction l as [|x tl IH]; simpl; [lia|].
  destruct (p x); simpl; lia.
Qed.

Lemma takeWhile_all (l : list A) : Forall (fun x => p x = true) (takeWhile p l).
Proof.
  induction l as [|x tl IH]; simpl; [constructor|].
  destruct (p x) eqn:E; constructor; assumption.
Qed.

Lemma dropWhile_head (l : list A) x tl :
  dropWhile p l = x :: tl -> p x = false.
Proof.
  induction l as [|y l' IH]; simpl; [discriminate|].
  destruct (p y) eqn:E; [exact IH|].
  intros H; injection H as -> _; exact E.
Qed.
End ScanFacts.

(** ** The note classifier *)

Section ClassifierFacts.
Import Classifier.
Variable heap : nat -> MidiNote.

Local Notation "'start' a" := (startTime (heap a)) (at level 10, a at level 9).

(** Induction along the iterations of the outer loop. *)
Lemma scan_ind (P : list nat -> Prop) :
  P [] ->
  (forall cur rest, P (afterGroup heap cur rest) -> P (cur :: rest)) ->
  forall l, P l.
Proof.
  intros H0 Hs l.
  assert (H : forall n l, (length l <= n)%nat -> P l).
  { induction n as [|n IH]; intros [|cur rest] Hl; simpl in Hl;
      try exact H0; try lia.
    apply Hs, IH. unfold afterGroup.
    pose proof (dropWhile_length (simultaneous heap cur) rest). lia. }
  apply (H (length l)). lia.
Qed.

Lemma group_split cur rest :
  cur :: rest = simultaneousNotes heap cur rest ++ afterGroup heap cur rest.
Proof.
  unfold simultaneousNotes, afterGroup. simpl.
  now rewrite takeWhile_dropWhile.
Qed.

(** *** The sort *)

Lemma insert_perm a l : Permutation (insert heap a l) (a :: l).
Proof.
  induction l as [|b tl IH]; simpl; [reflexivity|].
  destruct (JS.lt (compareFn heap b a) 0); [|reflexivity].
  rewrite IH. apply perm_swap.
Qed.

Lemma sortNotes_perm l : Permutation (sortNotes heap l) l.
Proof.
  induction l as [|a tl IH]; simpl; [reflexivity|].
  rewrite insert_perm. now constructor.
Qed.

Lemma insert_sorted a l :
  StronglySorted (byStartTime heap) l ->
  StronglySorted (byStartTime heap) (insert heap a l).
Proof.
  induction 1 as [|b tl Hs IH Hb]; simpl.
  - repeat constructor.
  - destruct (JS.lt (compareFn heap b a) 0) eqn:E.
    + apply lt_true in E. unfold compareFn in E.
      constructor; [exact IH|].
      eapply Permutation_Forall; [symmetry; apply insert_perm|].
      constructor; [unfold byStartTime; lra | exact Hb].
    + apply lt_false in E. unfold compareFn in E.
      constructor; [constructor; assumption|].
      constructor; [unfold byStartTime; lra|].
      eapply Forall_impl; [|exact Hb].
      unfold byStartTime. intros c Hc. lra.
Qed.

(** The sort is stable: notes with the same start time keep their
    order. *)
Lemma insert_stable (t : Q) a l :
  filter (fun n => Qeq_bool (startTime (heap n)) t) (insert heap a l)
  = filter (fun n => Qeq_bool (startTime (heap n)) t) (a :: l).
Proof.
  induction l as [|b tl IH]; [reflexivity|].
  cbn [insert]. destruct (JS.lt (compareFn heap b a) 0) eqn:E; [|reflexivity].
  apply lt_true in E. unfold compareFn in E.
  cbn [filter] in *. rewrite IH.
  destruct (Qeq_bool (startTime (heap b)) t) eqn:Eb;
    destruct (Qeq_bool (startTime (heap a)) t) eqn:Ea; try reflexivity.
  apply Qeq_bool_iff in Eb, Ea. lra.
Qed.

Lemma sortNotes_stable (t : Q) l :
  filter (fun n => Qeq_bool (startTime (heap n)) t) (sortNotes heap l)
  = filter (fun n => Qeq_bool (startTime (heap n)) t) l.
Proof.
  induction l as [|a tl IH]; [reflexivity|].
  cbn [sortNotes fold_right]. fold (sortNotes heap tl).
  rewrite insert_stable. cbn [filter]. now rewrite IH.
Qed.

Lemma sortNotes_sorted l : StronglySorted (byStartTime heap) (sortNotes heap l).
Proof.
  induction l as [|a tl IH]; simpl; [constructor | now apply insert_sorted].
Qed.

Lemma spaced_sortNotes l : spaced heap l -> sortNotes heap l = l.
Proof.
  induction l as [|a tl IH]; simpl; [reflexivity|].
  destruct tl as [|b tl']; [reflexivity|].
  intros [Hab Htl]. rewrite (IH Htl). simpl.
  destruct (JS.lt (compareFn heap b a) 0) eqn:E; [|reflexivity].
  apply lt_true in E. unfold compareFn, timeThreshold in *. lra.
Qed.

(** *** The groups *)

Lemma simultaneous_true cur n :
  simultaneous heap cur n = true <-> start n - start cur < timeThreshold.
Proof. unfold simultaneous. apply lt_true. Qed.

Lemma simultaneous_false cur n :
  simultaneous heap cur n = false <-> timeThreshold <= start n - start cur.
Proof. unfold simultaneous. apply lt_false. Qed.

Lemma groups_grouped l : GroupedByFirst heap l (simultaneityGroups heap l).
Proof.
  induction l as [|cur rest IH] using scan_ind.
  - rewrite simultaneityGroups_equation_1. constructor.
  - rewrite simultaneityGroups_equation_2.
    rewrite (group_split cur rest) at 1.
    unfold simultaneousNotes. simpl. constructor.
    + eapply Forall_impl; [|apply takeWhile_all].
      intros n Hn. now apply simultaneous_true.
    + intros n tl Hn. apply dropWhile_head in Hn.
      now apply simultaneous_false.
    + exact IH.
Qed.

Lemma groups_concat l : concat (simultaneityGroups heap l) = l.
Proof.
  induction l as [|cur rest IH] using scan_ind.
  - now rewrite simultaneityGroups_equation_1.
  - rewrite simultaneityGroups_equation_2. simpl concat.
    rewrite IH. symmetry. apply group_split.
Qed.


Lemma takeWhile_In (p : nat -> bool) l n :
  In n (takeWhile p l) -> In n l /\ p n = true.
Proof.
  induction l as [|x tl IH]; simpl; [tauto|].
  destruct (p x) eqn:E; simpl; [|tauto].
  intros [<-|H]; [tauto|]. destruct (IH H). tauto.
Qed.

Lemma afterGroup_sorted cur rest :
  StronglySorted (byStartTime heap) rest ->
  StronglySorted (byStartTime heap) (afterGroup heap cur rest).
Proof.
  unfold afterGroup. induction 1 as [|b tl Hs IH Hb]; simpl; [constructor|].
  destruct (simultaneous heap cur b); [exact IH | now constructor].
Qed.

(** On a sorted array every member of a group starts less than the
    threshold after every other member. *)
Lemma groups_span l :
  StronglySorted (byStartTime heap) l ->
  forall g a b, In g (simultaneityGroups heap l) -> In a g -> In b g ->
                start a - start b < timeThreshold.
Proof.
  induction l as [|cur rest IH] using scan_ind; intros Hs g a b.
  - rewrite simultaneityGroups_equation_1. intros [].
  - rewrite simultaneityGroups_equation_2.
    apply StronglySorted_inv in Hs as [Hrest Hcur].
    intros [<-|Hg].
    + assert (Hin : forall x, In x (simultaneousNotes heap cur rest) ->
                              start cur <= start x < start cur + timeThreshold).
      { intros x [<-|Hx]; [unfold timeThreshold; lra|].
        apply takeWhile_In in Hx as [Hx Hp].
        apply simultaneous_true in Hp.
        rewrite Forall_forall in Hcur. specialize (Hcur x Hx).
        unfold byStartTime in Hcur. lra. }
      intros Ha Hb. apply Hin in Ha, Hb. lra.
    + apply IH; [now apply afterGroup_sorted | exact Hg].
Qed.

Lemma spaced_tail a l : spaced heap (a :: l) -> spaced heap l.
Proof. destruct l; simpl; tauto. Qed.

Lemma spaced_group cur rest :
  spaced heap (cur :: rest) ->
  simultaneousNotes heap cur rest = [cur] /\ afterGroup heap cur rest = rest.
Proof.
  unfold simultaneousNotes, afterGroup.
  destruct rest as [|b tl]; simpl; [tauto|].
  intros [Hb _]. apply simultaneous_false in Hb. now rewrite Hb.
Qed.

Lemma classifyLoop_spaced l :
  spaced heap l ->
  forall melody harmony,
    classifyLoop heap l melody harmony = (melody ++ l, harmony).
Proof.
  induction l as [|cur rest IH]; intros Hs melody harmony.
  - rewrite classifyLoop_equation_1, app_nil_r. reflexivity.
  - rewrite classifyLoop_equation_2. cbv zeta.
    destruct (spaced_group cur rest Hs) as [-> ->]. simpl.
    rewrite (IH (spaced_tail _ _ Hs)), <- app_assoc. reflexivity.
Qed.

(** *** The top note of a group *)

Lemma reduce_highest l h :
  let top := topNoteOf heap l h in
  (top = h /\ forall n, In n l -> pitch (heap n) <= pitch (heap h))
  \/ (exists pre post,
        l = pre ++ top :: post
        /\ pitch (heap h) < pitch (heap top)
        /\ (forall n, In n pre -> pitch (heap n) < pitch (heap top))
        /\ (forall n, In n post -> pitch (heap n) <= pitch (heap top))).
Proof.
  unfold topNoteOf. revert h.
  induction l as [|x tl IH]; intros h; simpl.
  - left. split; [reflexivity | intros n []].
  - destruct (JS.gt (pitch (heap x)) (pitch (heap h))) eqn:E; unfold JS.gt in E.
    + apply lt_true in E.
      destruct (IH x) as [[Ht Hle]|(pre & post & Hl & Hlt & Hpre & Hpost)].
      * right. exists [], tl. rewrite Ht. simpl.
        repeat split; [exact E | intros n [] | exact Hle].
      * right. exists (x :: pre), post. simpl.
        repeat split; [now rewrite <- Hl | lra | | exact Hpost].
        intros n [<-|Hn]; [exact Hlt | now apply Hpre].
    + apply lt_false in E.
      destruct (IH h) as [[Ht Hle]|(pre & post & Hl & Hlt & Hpre & Hpost)].
      * left. split; [exact Ht|]. intros n [<-|Hn]; [exact E | now apply Hle].
      * right. exists (x :: pre), post. simpl.
        repeat split; [now rewrite <- Hl | exact Hlt | | exact Hpost].
        intros n [<-|Hn]; [lra | now apply Hpre].
Qed.

Lemma topNote_split first run :
  exists s, members s = first :: run
            /\ chosen s = topNoteOf heap (first :: run) first
            /\ firstHighest heap s.
Proof.
  assert (E : topNoteOf heap (first :: run) first = topNoteOf heap run first).
  { unfold topNoteOf. simpl. unfold JS.gt.
    assert (H : JS.lt (pitch (heap first)) (pitch (heap first)) = false)
      by (apply lt_false; lra).
    now rewrite H. }
  rewrite E.
  destruct (reduce_highest run first)
    as [[Ht Hle]|(pre & post & Hl & Hlt & Hpre & Hpost)].
  - exists (mkSplit [] first run). unfold members, firstHighest. simpl.
    repeat split; [now rewrite Ht | intros n [] | exact Hle].
  - exists (mkSplit (first :: pre) (topNoteOf heap run first) post).
    unfold members, firstHighest. simpl.
    repeat split; [now rewrite <- Hl | | exact Hpost].
    intros n [<-|Hn]; [exact Hlt | now apply Hpre].
Qed.

Lemma filter_other (t : nat) l :
  ~ In t l -> filter (fun note => negb (Nat.eqb note t)) l = l.
Proof.
  induction l as [|x tl IH]; simpl; [reflexivity|].
  intros H. destruct (Nat.eqb_spec x t) as [->|Hne]; simpl; [tauto|].
  rewrite IH; tauto.
Qed.

Lemma othersOf_split s :
  NoDup (members s) -> othersOf (members s) (chosen s) = remainder s.
Proof.
  unfold members, remainder, othersOf. intros Hnd.
  apply NoDup_remove_2 in Hnd.
  rewrite filter_app. simpl. rewrite Nat.eqb_refl. simpl.
  rewrite !filter_other; [reflexivity | |]; intros H; apply Hnd, in_or_app; tauto.
Qed.

(** The loop pushes, for every group in turn, the first member of
    highest pitch on [melody] and the other members on [harmony]. *)
Lemma classifyLoop_groups l :
  NoDup l ->
  forall melody harmony,
  exists sel,
    simultaneityGroups heap l = map members sel
    /\ classifyLoop heap l melody harmony
       = (melody ++ map chosen sel, harmony ++ flat_map remainder sel)
    /\ Forall (firstHighest heap) sel.
Proof.
  induction l as [|cur rest IH] using scan_ind; intros Hnd melody harmony.
  - exists []. rewrite simultaneityGroups_equation_1, classifyLoop_equation_1.
    simpl. now rewrite !app_nil_r.
  - rewrite (group_split cur rest) in Hnd.
    pose proof (NoDup_app_remove_l _ _ Hnd) as Hafter.
    pose proof (NoDup_app_remove_r _ _ Hnd) as Hgroup.
    rewrite simultaneityGroups_equation_2, classifyLoop_equation_2. cbv zeta.
    destruct (Nat.eqb_spec (length (simultaneousNotes heap cur rest)) 1)
      as [Hone|Hmore].
    + destruct (IH Hafter (melody ++ [cur]) harmony) as (sel & Hg & Hc & Hf).
      exists (mkSplit [] cur [] :: sel). simpl. rewrite Hg, Hc, <- app_assoc.
      unfold simultaneousNotes in *. simpl in Hone.
      destruct (takeWhile (simultaneous heap cur) rest); [|discriminate].
      repeat split. constructor; [|exact Hf].
      split; intros n [].
    + destruct (topNote_split cur (takeWhile (simultaneous heap cur) rest))
        as (s & Hm & Hch & Hhi).
      fold (simultaneousNotes heap cur rest) in Hm, Hch.
      rewrite <- Hch, <- Hm. rewrite <- Hm in Hgroup.
      rewrite (othersOf_split s Hgroup).
      destruct (IH Hafter (melody ++ [chosen s]) (harmony ++ remainder s))
        as (sel & Hg & Hc & Hf).
      exists (s :: sel). simpl. rewrite Hg, Hc, <- !app_assoc.
      repeat split. now constructor.
Qed.

Lemma classifyNotes_groups notes :
  NoDup notes ->
  exists sel,
    simultaneityGroups heap (sortNotes heap notes) = map members sel
    /\ classifyNotes heap notes = (map chosen sel, flat_map remainder sel)
    /\ Forall (firstHighest heap) sel.
Proof.
  intros Hnd. destruct notes as [|a tl].
  - exists []. simpl. now rewrite simultaneityGroups_equation_1.
  - unfold classifyNotes.
    apply (Permutation_NoDup (Permutation_sym (sortNotes_perm (a :: tl)))) in Hnd.
    apply (classifyLoop_groups _ Hnd [] []).
Qed.

Lemma selection_perm sel :
  Permutation (map chosen sel ++ flat_map remainder sel)
              (concat (map members sel)).
Proof.
  induction sel as [|s sel IH]; simpl; [constructor|].
  transitivity (chosen s :: remainder s ++ concat (map members sel)).
  - constructor. rewrite <- IH. apply Permutation_app_swap_app.
  - unfold members, remainder. rewrite <- !app_assoc. simpl.
    apply Permutation_middle.
Qed.

Lemma classifyNotes_perm notes :
  NoDup notes ->
  Permutation (fst (classifyNotes heap notes) ++ snd (classifyNotes heap notes))
              notes.
Proof.
  intros Hnd. destruct (classifyNotes_groups notes Hnd) as (sel & Hg & -> & _).
  simpl. rewrite selection_perm, <- Hg, groups_concat. apply sortNotes_perm.
Qed.

End ClassifierFacts.

Section ClassifierClaims.
Import Classifier.

Lemma NoDup_app_disjoint (l1 l2 : list nat) a :
  NoDup (l1 ++ l2) -> In a l1 -> ~ In a l2.
Proof.
  induction l1 as [|x tl IH]; simpl; [tauto|].
  intros Hnd [<-|Hin] H2.
  - apply NoDup_cons_iff in Hnd as [Hx _]. apply Hx, in_or_app. now right.
  - apply NoDup_cons_iff in Hnd as [_ Hnd]. now apply (IH Hnd Hin).
Qed.

Lemma map_heapOf_seq (notes : list MidiNote) :
  map (heapOf notes) (seq 0 (length notes)) = notes.
Proof.
  unfold heapOf. apply nth_ext with (d := nullNote) (d' := nullNote).
  - now rewrite length_map, length_seq.
  - intros n Hn. rewrite length_map, length_seq in Hn.
    rewrite (nth_indep _ nullNote (nth 0 notes nullNote))
      by now rewrite length_map, length_seq.
    rewrite (map_nth (fun a => nth a notes nullNote) (seq 0 (length notes)) 0%nat).
    now rewrite seq_nth.
Qed.

(** C2. [classifyNotes] partitions its input.  For every array of
    distinct note objects the lengths of [melody] and [harmony] add up to
    the length of the input, [melody ++ harmony] is a rearrangement of
    the input, and every input note is in exactly one of the two; in
    particular this holds for every NoteSet (a sequence of notes, each
    held by its own object), where the notes of the two outputs taken
    together are the notes of the input.  The result is a function of
    the input (the sort is stable), hence deterministic. *)
Theorem classifyNotes_partition :
  (forall (heap : nat -> MidiNote) (notes : list nat),
      NoDup notes ->
      let melody := fst (classifyNotes heap notes) in
      let harmony := snd (classifyNotes heap notes) in
      (length melody + length harmony = length notes)%nat
      /\ Permutation (melody ++ harmony) notes
      /\ (forall a, In a notes ->
                    (In a melody /\ ~ In a harmony)
                    \/ (~ In a melody /\ In a harmony)))
  /\ (forall notes : list MidiNote,
         let melody := fst (classifyNoteSet notes) in
         let harmony := snd (classifyNoteSet notes) in
         (length melody + length harmony = length notes)%nat
         /\ Permutation (melody ++ harmony) notes).
Proof.
  assert (Hobj : forall heap notes, NoDup notes ->
            (length (fst (classifyNotes heap notes))
             + length (snd (classifyNotes heap notes)) = length notes)%nat
            /\ Permutation (fst (classifyNotes heap notes)
                            ++ snd (classifyNotes heap notes)) notes).
  { intros heap notes Hnd.
    pose proof (classifyNotes_perm heap notes Hnd) as HP.
    split; [|exact HP].
    rewrite <- (Permutation_length HP), length_app. reflexivity. }
  split.
  - intros heap notes Hnd melody harmony.
    destruct (Hobj heap notes Hnd) as [Hlen HP].
    repeat split; [exact Hlen | exact HP |].
    intros a Ha.
    pose proof (Permutation_NoDup (Permutation_sym HP) Hnd) as Hnd'.
    apply (Permutation_in a (Permutation_sym HP)) in Ha.
    apply in_app_or in Ha as [Ha|Ha].
    + left. split; [exact Ha|]. now apply (NoDup_app_disjoint _ _ a Hnd').
    + right. split; [|exact Ha].
      intros Hm. now apply (NoDup_app_disjoint _ _ a Hnd' Hm).
  - intros notes melody harmony. subst melody harmony.
    destruct (Hobj (heapOf notes) (seq 0 (length notes)) (seq_NoDup _ _))
      as [Hlen HP].
    unfold classifyNoteSet. simpl.
    split.
    + rewrite !length_map, Hlen, length_seq. reflexivity.
    + rewrite <- map_app.
      apply (Permutation_map (heapOf notes)) in HP.
      now rewrite map_heapOf_seq in HP.
Qed.

(** The hypothesis of distinct objects is needed: an array that lists
    the same object twice loses one occurrence, because the filter
    [note !== topNote] drops both. *)
Remark classifyNotes_same_object_twice :
  classifyNotes (heapOf Samples.chord) [0; 0]%nat = ([0]%nat, []).
Proof. vm_compute. reflexivity. Qed.

Lemma classifyNotes_partition_witness :
  NoDup [2; 0; 1]%nat
  /\ Permutation
       (fst (classifyNotes (heapOf Samples.chord) [2; 0; 1]%nat)
        ++ snd (classifyNotes (heapOf Samples.chord) [2; 0; 1]%nat))
       [2; 0; 1]%nat.
Proof.
  assert (H : NoDup [2; 0; 1]%nat).
  { repeat (apply NoDup_cons; [simpl; intuition discriminate|]).
    apply NoDup_nil. }
  split; [exact H|].
  exact (proj1 (proj2 (proj1 classifyNotes_partition
                         (heapOf Samples.chord) [2; 0; 1]%nat H))).
Defined.


(** C3. In every simultaneity group the melody note is the first member
    of highest pitch and all other members go to [harmony]: for an
    array of distinct note objects, the groups formed on the sorted
    array can each be split as [before ++ chosen :: after] with every
    member of [before] strictly lower than [chosen] and every member of
    [after] at most as high, [melody] is the list of the [chosen] notes
    and [harmony] the concatenation of the [before ++ after] parts.  In
    a group whose members all have the same pitch nothing comes before
    the chosen note: it is the first.  On the three-note chord of the
    specification the melody is the pitch-67 note and the harmony the
    pitch-60 and pitch-64 notes. *)
Theorem classifyNotes_top_note :
  (forall (heap : nat -> MidiNote) (notes : list nat),
      NoDup notes ->
      exists sel,
        simultaneityGroups heap (sortNotes heap notes) = map members sel
        /\ classifyNotes heap notes = (map chosen sel, flat_map remainder sel)
        /\ Forall (firstHighest heap) sel)
  /\ (forall (heap : nat -> MidiNote) (s : Split),
         firstHighest heap s ->
         (forall n, In n (members s) ->
                    pitch (heap n) == pitch (heap (chosen s))) ->
         before s = [])
  /\ classifyNoteSet Samples.chord
     = ([Samples.noteAt 67 (15 # 1000)],
        [Samples.noteAt 60 0; Samples.noteAt 64 (1 # 100)]).
Proof.
  split; [|split].
  - intros heap notes Hnd. now apply classifyNotes_groups.
  - intros heap s [Hbefore _] Hsame.
    destruct (before s) as [|x pre] eqn:E; [reflexivity|].
    exfalso.
    assert (Hx : In x (members s))
      by (unfold members; rewrite E; now left).
    specialize (Hbefore x (or_introl eq_refl)).
    specialize (Hsame x Hx). lra.
  - vm_compute. reflexivity.
Qed.

Lemma classifyNotes_top_note_witness :
  NoDup [0; 1; 2]%nat
  /\ exists sel,
       simultaneityGroups (heapOf Samples.chord)
                          (sortNotes (heapOf Samples.chord) [0; 1; 2]%nat)
       = map members sel
       /\ classifyNotes (heapOf Samples.chord) [0; 1; 2]%nat
          = (map chosen sel, flat_map remainder sel)
       /\ Forall (firstHighest (heapOf Samples.chord)) sel.
Proof.
  assert (H : NoDup [0; 1; 2]%nat).
  { repeat (apply NoDup_cons; [simpl; intuition discriminate|]).
    apply NoDup_nil. }
  split; [exact H|].
  exact (proj1 classifyNotes_top_note (heapOf Samples.chord) [0; 1; 2]%nat H).
Defined.

(** C4, as stated, fails on its last part: a chain of notes each 15
    milliseconds apart that spans more than 20 milliseconds is not one
    group.  The notes at 0, 15 and 30 ms form the groups [0, 15] and
    [30]. *)
Lemma chain_of_15ms_is_split :
  ~ (forall (heap : nat -> MidiNote) (notes : list nat),
        notes <> [] ->
        chained heap (15 # 1000) notes ->
        simultaneityGroups heap (sortNotes heap notes) = [notes]).
Proof.
  intros H.
  specialize (H (heapOf Samples.chain) [0; 1; 2]%nat).
  assert (Hne : [0; 1; 2]%nat <> []) by discriminate.
  assert (Hch : chained (heapOf Samples.chain) (15 # 1000) [0; 1; 2]%nat)
    by (simpl; repeat split; reflexivity).
  specialize (H Hne Hch). vm_compute in H. discriminate H.
Qed.

(** C4, amended.  Each group is formed by comparing a candidate's
    [startTime] with the [startTime] of the group's first note
    (threshold 20 ms): the run after the first note holds notes starting
    less than the threshold after it, the note following the run does
    not, and [melody] and [harmony] are read off these groups.
    Consequently an array whose consecutive notes start at least 20 ms
    apart yields [harmony = []] and [melody] equal to the input, and no
    group spans 20 ms or more: any two members of a group start less
    than 20 ms apart, so a chain of notes each 15 ms apart is cut into
    several groups, the notes at 0, 15 and 30 ms giving melody
    [64, 67] and harmony [60]. *)
Theorem groups_measured_from_first_note :
  (forall (heap : nat -> MidiNote) (sortedNotes : list nat),
      GroupedByFirst heap sortedNotes (simultaneityGroups heap sortedNotes))
  /\ (forall (heap : nat -> MidiNote) (notes : list nat),
         NoDup notes ->
         exists sel,
           simultaneityGroups heap (sortNotes heap notes) = map members sel
           /\ classifyNotes heap notes
              = (map chosen sel, flat_map remainder sel))
  /\ (forall (heap : nat -> MidiNote) (notes : list nat),
         spaced heap notes -> classifyNotes heap notes = (notes, []))
  /\ (forall (heap : nat -> MidiNote) (notes g : list nat) (a b : nat),
         In g (simultaneityGroups heap (sortNotes heap notes)) ->
         In a g -> In b g ->
         startTime (heap a) - startTime (heap b) < timeThreshold)
  /\ (chained (heapOf Samples.chain) (15 # 1000) [0; 1; 2]%nat
      /\ simultaneityGroups (heapOf Samples.chain)
                            (sortNotes (heapOf Samples.chain) [0; 1; 2]%nat)
         = [[0; 1]; [2]]%nat
      /\ classifyNoteSet Samples.chain
         = ([Samples.noteAt 64 (15 # 1000); Samples.noteAt 67 (30 # 1000)],
            [Samples.noteAt 60 0])).
Proof.
  split; [|split; [|split; [|split; [|split; [|split]]]]].
  - intros heap l. apply groups_grouped.
  - intros heap notes Hnd.
    destruct (classifyNotes_groups heap notes Hnd) as (sel & Hg & Hc & _).
    now exists sel.
  - intros heap notes Hs. unfold classifyNotes.
    destruct notes as [|a tl]; [reflexivity|].
    rewrite (spaced_sortNotes heap _ Hs).
    now rewrite (classifyLoop_spaced heap _ Hs).
  - intros heap notes g a b. apply groups_span, sortNotes_sorted.
  - simpl. repeat split; reflexivity.
  - vm_compute. reflexivity.
  - vm_compute. reflexivity.
Qed.

Lemma groups_measured_from_first_note_witness :
  spaced (heapOf Samples.line) [0; 1; 2]%nat
  /\ classifyNotes (heapOf Samples.line) [0; 1; 2]%nat = ([0; 1; 2]%nat, []).
Proof.
  assert (H : spaced (heapOf Samples.line) [0; 1; 2]%nat).
  { simpl. repeat split; unfold timeThreshold; discriminate. }
  split; [exact H|].
  exact (proj1 (proj2 (proj2 groups_measured_from_first_note))
               (heapOf Samples.line) [0; 1; 2]%nat H).
Defined.

End ClassifierClaims.

(** ** The quantizer *)

Section QuantizerClaims.
Import Quantizer.

Lemma round_nearest (x : Q) :
  JS.Math_round x = inject_Z (Qfloor (x + (1 # 2)))
  /\ nearestInteger (Qfloor (x + (1 # 2))) x.
Proof.
  split; [reflexivity|]. unfold nearestInteger.
  pose proof (Qfloor_le (x + (1 # 2))) as Hlo.
  pose proof (Qlt_floor (x + (1 # 2))) as Hhi.
  rewrite inject_Z_plus in Hhi. change (inject_Z 1) with 1 in Hhi.
  split; lra.
Qed.

Lemma gridUnit_pos (bpm : Q) (quantizeGrid : Quantization) :
  0 < bpm -> 0 < secondsPerGridUnit bpm quantizeGrid.
Proof.
  intros Hb. unfold secondsPerGridUnit.
  assert (H : 0 < 60 / bpm) by (apply Qlt_shift_div_l; lra).
  destruct quantizeGrid; cbv zeta; apply Qlt_shift_div_l; lra.
Qed.







End QuantizerClaims.

(** ** The quantizer in the arithmetic of the machine *)

Section Quantizer64Claims.
Import SpecFloat Double Quantizer64.

(** *** Integers as doubles *)

Lemma digits2_iter (k p : positive) :
  digits2_pos (Pos.iter xO k p) = (digits2_pos k + p)%positive.
Proof.
  induction p as [|p IH] using Pos.peano_ind.
  - cbn. now rewrite Pos.add_1_r.
  - rewrite Pos.iter_succ. cbn [digits2_pos]. rewrite IH.
    now rewrite Pos.add_succ_r.
Qed.

Lemma iter_pow2 (k p : positive) :
  Pos.iter xO k p = (k * pow2 p)%positive.
Proof.
  unfold pow2. induction p as [|p IH] using Pos.peano_ind.
  - cbn. now rewrite Pos.mul_xO_r, Pos.mul_1_r.
  - rewrite !Pos.iter_succ, IH. now rewrite Pos.mul_xO_r.
Qed.

Lemma digits2_size (k : positive) : digits2_pos k = Pos.size k.
Proof. induction k; cbn; now rewrite ?IHk. Qed.

Lemma digits2_bound (k : positive) :
  (Zpos k < 2 ^ 53)%Z -> (Zpos (digits2_pos k) <= 53)%Z.
Proof.
  intros Hk. rewrite digits2_size.
  pose proof (Pos.size_le k) as Hle.
  destruct (Z_le_gt_dec (Zpos (Pos.size k)) 53) as [H|H]; [exact H|exfalso].
  assert (H54 : (2 ^ 54 <= 2 ^ Zpos (Pos.size k))%Z)
    by (apply Z.pow_le_mono_r; lia).
  assert (Hp : (2 ^ Zpos (Pos.size k) <= Zpos k~0)%Z).
  { rewrite <- Pos2Z.inj_pow. apply Pos2Z.pos_le_pos. exact Hle. }
  change (2 ^ 54)%Z with (2 * 2 ^ 53)%Z in H54.
  rewrite Pos2Z.inj_xO in Hp. lia.
Qed.

(** A mantissa of 53 binary digits needs no shift. *)
Ltac no_shift :=
  match goal with
  | |- context [shr ?r ?e ?n] =>
      let H := fresh "H" in
      assert (H : n = 0%Z);
      [ cbn [Zdigits2 shr_m shr_record_of_loc round_nearest_even
               loc_of_shr_record];
        rewrite ?digits2_iter; unfold fexp, emin, prec, emax; lia
      | rewrite H; cbn [shr] ]
  end.

(** Rounding an integer of at most 53 binary digits to a double only
    aligns its mantissa to 53 digits. *)
Lemma binary_round_integer (sgn : bool) (k : positive) :
  (Zpos (digits2_pos k) <= 53)%Z ->
  binary_round prec emax sgn k 0
  = match (Zpos (digits2_pos k) - 53)%Z with
    | Zneg p => S754_finite sgn (Pos.iter xO k p) (Zneg p)
    | _ => S754_finite sgn k 0
    end.
Proof.
  intros Hd. unfold binary_round, shl_align.
  match goal with
  | |- context [fexp ?p ?m ?x] =>
      assert (F : fexp p m x = (Zpos (digits2_pos k) - 53)%Z)
        by (unfold fexp, emin, prec, emax; lia);
      rewrite F
  end.
  rewrite Z.sub_0_r.
  clear F.
  destruct (Zpos (digits2_pos k) - 53)%Z as [|q|q] eqn:E; try lia;
    unfold binary_round_aux, shr_fexp.
  - no_shift.
    cbn [shr_m shr_record_of_loc round_nearest_even loc_of_shr_record].
    no_shift. cbn. reflexivity.
  - no_shift.
    cbn [shr_m shr_record_of_loc round_nearest_even loc_of_shr_record].
    no_shift. cbn [shr_m shr_record_of_loc].
    assert (L : (Zneg q <=? emax - prec)%Z = true)
      by (apply Z.leb_le; unfold emax, prec; lia).
    rewrite L. reflexivity.
Qed.

(** The double of an integer below [2 ^ 53] in absolute value stands for
    that integer. *)
Lemma integral_value (s : bool) (k : Z) :
  (Z.abs k < 2 ^ 53)%Z -> valueOf (integral s k) == inject_Z k.
Proof.
  intros Hk. destruct k as [|k|k]; [reflexivity| |];
    unfold integral, ofInteger, binary_normalize;
    (rewrite binary_round_integer by (apply digits2_bound; cbn in Hk; lia));
    destruct (Zpos (digits2_pos k) - 53)%Z as [|q|q]; cbn [valueOf];
    try reflexivity;
    rewrite iter_pow2; unfold Qeq, inject_Z; cbn [Qnum Qden]; lia.
Qed.

(** [Math.round] gives the rounding of its argument. *)
Lemma Math_round_rounded (q : number) : rounded q (Math_round q).
Proof.
  destruct q as [s|s| |s m e]; cbn [rounded Math_round]; try reflexivity.
  exists (Qfloor (valueOf (S754_finite s m e) + (1 # 2))).
  split; [apply round_nearest|]. split; [reflexivity|].
  apply integral_value.
Qed.

(** *** Comparison of doubles *)

Lemma SFcompare_swap (a b : number) :
  SFcompare b a = option_map CompOpp (SFcompare a b).
Proof.
  destruct a as [sa|sa| |sa ma ea], b as [sb|sb| |sb mb eb]; cbn;
    try destruct sa; try destruct sb; try reflexivity;
    rewrite (Z.compare_antisym ea eb);
    destruct (ea ?= eb)%Z; cbn; try reflexivity;
    rewrite (Pos.compare_cont_antisym ma mb Eq); cbn; reflexivity.
Qed.

Lemma SFcompare_refl (a : number) : ~ isNaN a -> SFcompare a a = Some Eq.
Proof.
  destruct a as [s|s| |s m e]; cbn; intros H; try destruct s; try reflexivity;
    try (exfalso; now apply H);
    rewrite Z.compare_refl, Pos.compare_cont_refl; reflexivity.
Qed.

Lemma SFcompare_None (a b : number) :
  SFcompare a b = None <-> isNaN a \/ isNaN b.
Proof.
  destruct a as [sa|sa| |sa ma ea], b as [sb|sb| |sb mb eb]; cbn;
    split; try discriminate; try tauto; intros [[]|[]].
Qed.

(** [Math.max] gives the larger of its arguments. *)
Lemma Math_max_largerOf (a b : number) : largerOf (Math_max a b) a b.
Proof.
  unfold largerOf, Math_max, le. split.
  - intros H. apply SFcompare_None in H. now rewrite H.
  - intros Ha Hb.
    pose proof (SFcompare_swap a b) as Hswap.
    pose proof (SFcompare_refl a Ha) as Haa.
    pose proof (SFcompare_refl b Hb) as Hbb.
    unfold SFleb.
    destruct (SFcompare a b) as [[| |]|] eqn:E; cbn in Hswap.
    + assert (Hz : forall m, m = a \/ m = b ->
                             (m = a \/ m = b)
                             /\ match SFcompare a m with
                                | Some (Lt | Eq) => true | _ => false end = true
                             /\ match SFcompare b m with
                                | Some (Lt | Eq) => true | _ => false end = true).
      { intros m [->| ->]; rewrite ?Haa, ?Hbb, ?E, ?Hswap; tauto. }
      destruct a as [[|]| | |], b as [[|]| | |]; apply Hz; tauto.
    + rewrite E, Hbb. tauto.
    + rewrite Haa, Hswap. tauto.
    + exfalso. apply SFcompare_None in E. tauto.
Qed.

Lemma quantizeNote_snapped (unit : number) (note : MidiNote) :
  snapped unit note (quantizeNote unit note).
Proof.
  unfold snapped, quantizeNote. cbn [pitch velocity startTime duration].
  split; [reflexivity|]. split; [reflexivity|]. split.
  - exists (Math_round (div (startTime note) unit)).
    split; [apply Math_round_rounded | reflexivity].
  - exists (Math_round (div (duration note) unit)).
    split; [apply Math_round_rounded | apply Math_max_largerOf].
Qed.

(** C5. [quantizeNotes] maps the notes one by one and in order.  In the
    arithmetic of the machine, with
    [gridUnit = (60 / bpm) / subdivisions] (4 for the sixteenth grid, 3
    for the triplet grid), which is the unit the code computes, every
    output note keeps the pitch and velocity of its input note, starts at
    [round(startTime / gridUnit) * gridUnit] and lasts
    [max(gridUnit, round(duration / gridUnit) * gridUnit)]: [round] of a
    finite quotient is the double of the integer nearest to the computed
    quotient, halves going up, and [max] is the larger of the two.  At
    120 bpm on the sixteenth grid the unit is 0.125 s and a note with
    start 0.09 and duration 0.03 becomes start 0.125, duration 0.125.
    The tempo need not be restricted for the formula to hold. *)
Theorem quantizeNotes_grid :
  (forall (notes : list MidiNote) (bpm : number) (quantizeGrid : Quantization),
      let gridUnit :=
        div (div (ofInteger 60) bpm) (subdivisions quantizeGrid) in
      secondsPerGridUnit bpm quantizeGrid = gridUnit
      /\ length (quantizeNotes notes bpm quantizeGrid) = length notes
      /\ Forall2 (snapped gridUnit) notes (quantizeNotes notes bpm quantizeGrid))
  /\ secondsPerGridUnit (ofInteger 120) Q16 = ofQ (125 # 1000)
  /\ valueOf (ofQ (125 # 1000)) == 125 # 1000
  /\ (forall (p : number) (v : option number),
         exists note',
           quantizeNotes [mkMidiNote p (ofQ (9 # 100)) (ofQ (3 # 100)) v]
                         (ofInteger 120) Q16
           = [note']
           /\ pitch note' = p /\ velocity note' = v
           /\ startTime note' = ofQ (125 # 1000)
           /\ duration note' = ofQ (125 # 1000)).
Proof.
  split; [|split; [|split]].
  - intros notes bpm quantizeGrid gridUnit.
    assert (E : secondsPerGridUnit bpm quantizeGrid = gridUnit)
      by (destruct quantizeGrid; reflexivity).
    split; [exact E|]. unfold quantizeNotes. rewrite E.
    split; [apply length_map|].
    induction notes as [|note tl IH]; cbn [map]; constructor.
    + apply quantizeNote_snapped.
    + exact IH.
  - vm_compute. reflexivity.
  - vm_compute. reflexivity.
  - intros p v. eexists. split; [reflexivity|].
    cbn [pitch velocity startTime duration].
    split; [reflexivity|]. split; [reflexivity|].
    split; vm_compute; reflexivity.
Qed.

End Quantizer64Claims.

(** *** The two arithmetics side by side *)

Section QuantizerArithmetics.
Import Double.

(** At 54 bpm on the triplet grid a note that starts at 5 s is, in exact
    arithmetic, half-way between the grid lines 13 and 14: the quotient
    the machine computes is below 13.5, and the note goes to line 13.
    In exact arithmetic the half goes up, to line 14. *)
Remark halfway_note :
  let unit := Quantizer64.secondsPerGridUnit (ofInteger 54) Q8T in
  valueOf (div (ofInteger 5) unit) < 27 # 2
  /\ Quantizer64.startTime
       (Quantizer64.quantizeNote unit
                                 (Quantizer64.mkMidiNote
                                    (ofInteger 60) (ofInteger 5)
                                    (ofInteger 1) None))
     = mul (ofInteger 13) unit
  /\ 5 / Quantizer.secondsPerGridUnit 54 Q8T == 27 # 2
  /\ startTime (Quantizer.quantizeNote (Quantizer.secondsPerGridUnit 54 Q8T)
                                       (mkMidiNote 60 5 1 None))
     == 14 * Quantizer.secondsPerGridUnit 54 Q8T.
Proof.
  cbv zeta. split; [|split; [|split]].
  - vm_compute. reflexivity.
  - vm_compute. reflexivity.
  - vm_compute. reflexivity.
  - vm_compute. reflexivity.
Qed.

End QuantizerArithmetics.

(** ** The map position *)

Section PositionClaims.
Import Position.

(** C1. The map position the application derives from an analysis has
    [x = melodicComplexity / 3 + melodicRichness * 2 / 3] and
    [y = harmonicRichness], with no clamp on either: scores 60 and 30
    give [x = 40], a harmonic richness of 75 gives [y = 75], and the
    scores 150 and 150 give [x = 150], above 100; [x] stays inside
    [[0, 100]] when both scores do.  The corpus
    preprocessing script computes the same [x] and does clamp it to
    [[0, 100]] (100 on that analysis), leaving [y] as it is. *)
Theorem appMapPosition_formula :
  (forall a : Analysis,
      pos_x (appMapPosition a)
      == melodicComplexity a / 3 + melodicRichness a * 2 / 3
      /\ pos_y (appMapPosition a) = harmonicRichness a)
  /\ (pos_x (appMapPosition (mkAnalysis 60 75 30)) == 40
      /\ pos_y (appMapPosition (mkAnalysis 60 75 30)) == 75)
  /\ (pos_x (appMapPosition (mkAnalysis 150 75 150)) == 150
      /\ ~ pos_x (appMapPosition (mkAnalysis 150 75 150)) <= 100)
  /\ (forall a : Analysis,
         0 <= melodicComplexity a <= 100 ->
         0 <= melodicRichness a <= 100 ->
         0 <= pos_x (appMapPosition a) <= 100)
  /\ (forall a : Analysis,
         0 <= pos_x (preprocessMapPosition a) <= 100
         /\ pos_y (preprocessMapPosition a) = harmonicRichness a)
  /\ pos_x (preprocessMapPosition (mkAnalysis 150 75 150)) == 100.
Proof.
  split; [|split; [|split; [|split; [|split]]]].
  - intros a. split; reflexivity.
  - split; reflexivity.
  - split; [reflexivity|]. intros H. vm_compute in H. now apply H.
  - intros a Hc Hr. unfold appMapPosition. cbn [pos_x].
    assert (E1 : melodicComplexity a / 3 == melodicComplexity a * (1 # 3))
      by reflexivity.
    assert (E2 : melodicRichness a * 2 / 3 == melodicRichness a * 2 * (1 # 3))
      by reflexivity.
    lra.
  - intros a. split; [|reflexivity].
    unfold preprocessMapPosition. simpl.
    set (xPos := melodicComplexity a / 3 + melodicRichness a * 2 / 3).
    destruct (Math_min_cases 100 xPos) as [[H1 ->]|[H1 ->]].
    + destruct (Math_max_cases 0 xPos) as [[H2 ->]|[H2 ->]]; lra.
    + destruct (Math_max_cases 0 100) as [[H2 ->]|[H2 ->]]; lra.
  - reflexivity.
Qed.

Lemma appMapPosition_formula_witness :
  0 <= 60 <= 100 /\ 0 <= 30 <= 100
  /\ 0 <= pos_x (appMapPosition (mkAnalysis 60 75 30)) <= 100.
Proof.
  assert (Hc : 0 <= 60 <= 100) by lra.
  assert (Hr : 0 <= 30 <= 100) by lra.
  split; [exact Hc|]. split; [exact Hr|].
  exact (proj1 (proj2 (proj2 (proj2 appMapPosition_formula)))
               (mkAnalysis 60 75 30) Hc Hr).
Defined.

End PositionClaims.

(** ** The viewport *)

Section ViewportClaims.
Import MusicMap.

Lemma zoomDomain_axes (factor : Q) (prev : Domain) :
  dom_x (zoomDomain factor prev) = zoomAxis factor (dom_x prev)
  /\ dom_y (zoomDomain factor prev) = zoomAxis factor (dom_y prev).
Proof. split; reflexivity. Qed.

Lemma clamp_inside (v : Q) : 0 <= v <= 100 -> clamp v 0 100 == v.
Proof.
  intros Hv. assert (H : 0 <= 100) by lra.
  destruct (clamp_cases v 0 100 H) as [[H1 E]|[[H1 E]|[H1 E]]]; rewrite E; lra.
Qed.

Lemma clamp_below (v : Q) : v <= 0 -> clamp v 0 100 == 0.
Proof.
  intros Hv. assert (H : 0 <= 100) by lra.
  destruct (clamp_cases v 0 100 H) as [[H1 E]|[[H1 E]|[H1 E]]]; rewrite E; lra.
Qed.

Lemma zoomAxis_zoomed (factor : JS.number) (prev : JS.number * JS.number) :
  0 <= width prev * factor -> zoomedAxis factor prev (zoomAxis factor prev).
Proof.
  unfold zoomedAxis, zoomAxis, width, sameRange. cbv zeta.
  generalize ((snd prev - fst prev) * factor). intros range.
  generalize ((fst prev + snd prev) / 2). intros center.
  intros Hr. cbn [fst snd].
  assert (Hhalf : range / 2 == range * (1 # 2)) by reflexivity.
  destruct (JS.lt (center - range / 2) 0) eqn:Elo.
  - apply lt_true in Elo. cbn [fst snd].
    unfold JS.gt.
    destruct (JS.lt 100 (center + range / 2 - (center - range / 2))) eqn:Ehi.
    + apply lt_true in Ehi. cbn [fst snd].
      rewrite (clamp_below (0 - (center + range / 2 - (center - range / 2) - 100)))
        by lra.
      rewrite (clamp_inside 100) by lra.
      repeat split; intros; cbn [fst snd]; lra.
    + apply lt_false in Ehi. cbn [fst snd].
      rewrite (clamp_inside 0) by lra.
      rewrite (clamp_inside (center + range / 2 - (center - range / 2))) by lra.
      repeat split; intros; cbn [fst snd]; lra.
  - apply lt_false in Elo. cbn [fst snd].
    unfold JS.gt.
    destruct (JS.lt 100 (center + range / 2)) eqn:Ehi.
    + apply lt_true in Ehi. cbn [fst snd].
      rewrite (clamp_inside 100) by lra.
      destruct (Qlt_le_dec 100 range) as [Hbig|Hfit].
      * rewrite (clamp_below (center - range / 2 - (center + range / 2 - 100)))
          by lra.
        repeat split; intros; cbn [fst snd]; lra.
      * rewrite (clamp_inside (center - range / 2 - (center + range / 2 - 100)))
          by lra.
        repeat split; intros; cbn [fst snd]; lra.
    + apply lt_false in Ehi. cbn [fst snd].
      rewrite (clamp_inside (center - range / 2)) by lra.
      rewrite (clamp_inside (center + range / 2)) by lra.
      repeat split; intros; cbn [fst snd]; lra.
Qed.


Lemma zoomAxis_inside (factor : JS.number) (prev : JS.number * JS.number) :
  0 <= width prev * factor -> inside (zoomAxis factor prev).
Proof.
  intros Hr. pose proof (zoomAxis_zoomed factor prev Hr) as [Hfit Hbig].
  assert (H100 : 0 <= 100) by lra.
  assert (Hlo : 0 <= fst (zoomAxis factor prev) <= 100)
    by (unfold zoomAxis; cbv zeta; cbn [fst snd]; now apply clamp_range).
  assert (Hhi : 0 <= snd (zoomAxis factor prev) <= 100)
    by (unfold zoomAxis; cbv zeta; cbn [fst snd]; now apply clamp_range).
  unfold inside. repeat split; try lra.
  destruct (Qlt_le_dec 100 (width prev * factor)) as [Hb|Hf].
  - destruct (Hbig Hb) as [E1 E2]. cbn [fst snd] in E1, E2. lra.
  - destruct (Hfit Hf) as [E _]. unfold width in E at 1. lra.
Qed.






End ViewportClaims.

(** ** The drag state machine *)

Section DragClaims.
Import MusicMap.

Lemma dragPosition_inSquare (d : Domain) (c : Container) (clientX clientY : JS.number) :
  inSquare (dragPosition d c clientX clientY).
Proof.
  unfold dragPosition, inSquare.
  destruct (dom_x d) as [xMin xMax], (dom_y d) as [yMin yMax].
  cbn [pos_x pos_y].
  assert (H : 0 <= 100) by lra.
  split; apply clamp_range; exact H.
Qed.

Lemma run_cons (s : State) (v : View) (e : Event) (rest : list (View * Event)) :
  run s ((v, e) :: rest)
  = (fst (run (fst (step v s e)) rest),
     snd (step v s e) ++ snd (run (fst (step v s e)) rest)).
Proof.
  cbn [run]. destruct (step v s e) as [s1 o1]. cbn [fst snd].
  now destruct (run s1 rest) as [s2 o2].
Qed.

Lemma run_app (s : State) (t1 t2 : list (View * Event)) :
  run s (t1 ++ t2)
  = (fst (run (fst (run s t1)) t2),
     snd (run s t1) ++ snd (run (fst (run s t1)) t2)).
Proof.
  revert s. induction t1 as [|[v e] tl IH]; intros s; simpl.
  - now destruct (run s t2).
  - destruct (step v s e) as [s1 o1].
    rewrite (IH s1).
    destruct (run s1 tl) as [s2 o2]. simpl.
    now rewrite app_assoc.
Qed.

Ltac handlers :=
  unfold step, handleMouseDownOnUserMelody, handleMouseMove, handleMouseUp,
    onMouseDown, handlePanMove, handlePanUp, handleZoom, handleResetZoom,
    onClick.

(** A pointer-move while the user's point is held: the press started a
    drag and a pan. *)
Lemma step_move_dragging (v : View) (c : Container) (start : PanStart) (s : State)
      (clientX clientY : JS.number) :
  chartContainer v = Some c ->
  isDragging s = true -> isPanning s = true -> panStartRef s = Some start ->
  step v s (MouseMove clientX clientY)
  = (mkState true (Some (dragPosition (domain s) c clientX clientY))
             true (panDomain start c clientX clientY) true (Some start),
     []).
Proof.
  intros Hc Hd Hp Hs. handlers. rewrite Hd, Hc. cbn. rewrite Hp, Hs.
  reflexivity.
Qed.

(** A pointer-down on the user's point when it is draggable. *)
Lemma step_down_draggable (v : View) (p : MapPosition) (s : State)
      (x0 y0 : JS.number) :
  activeMapPosition v = Some p -> isDraggable v = true ->
  step v s (MouseDownOnUserMelody x0 y0)
  = (mkState true (Some p) false (domain s) true
             (Some (mkPanStart x0 y0 (dom_x (domain s)) (dom_y (domain s)))),
     []).
Proof. intros Ha Hd. handlers. now rewrite Ha, Hd. Qed.

(** The state after one or more pointer-moves while the user's point is
    held: the live position is the one the last move computed on the
    domain it saw, and the domain is the one panned to the last
    pointer position. *)
Lemma run_moves (v : View) (c : Container) (start : PanStart)
      (points : list (JS.number * JS.number))
      (lastPoint : JS.number * JS.number) (s : State) :
  chartContainer v = Some c ->
  isDragging s = true -> isPanning s = true -> panStartRef s = Some start ->
  run s (moves v (points ++ [lastPoint]))
  = (mkState true
             (Some (dragPosition
                      match rev points with
                      | [] => domain s
                      | xy :: _ => panDomain start c (fst xy) (snd xy)
                      end
                      c (fst lastPoint) (snd lastPoint)))
             true (panDomain start c (fst lastPoint) (snd lastPoint))
             true (Some start),
     []).
Proof.
  intros Hc. revert s. unfold moves.
  induction points as [|xy tl IH]; intros s Hd Hp Hs; cbn [app map];
    rewrite run_cons, (step_move_dragging v c start s _ _ Hc Hd Hp Hs);
    cbn [fst snd].
  - reflexivity.
  - rewrite IH by reflexivity. cbn [domain rev app].
    destruct (rev tl) as [|xy' r]; reflexivity.
Qed.

(** C9. From a state with no gesture in progress, a pointer-down on the
    user's point followed directly by a pointer-up calls no callback at
    all, so no variation is requested; when the point is draggable the
    click that follows selects the node.  With the point draggable and
    the chart container mounted, the same sequence with one or more
    pointer-moves in between calls [onUserMelodyMove] exactly once, with
    the live position, and the click that follows is ignored.  The live
    position is the one the last move computed from the pointer and the
    domain then on screen; as the press on the point also starts a pan,
    that domain is the one shown at the press only for the first move,
    and the domain panned to the previous pointer position after
    that. *)
Theorem click_versus_drag :
  (forall (v v' : View) (s : State) (x0 y0 : JS.number),
      idle s ->
      snd (run s [(v, MouseDownOnUserMelody x0 y0); (v', MouseUp)]) = [])
  /\ (forall (v : View) (p : MapPosition) (s : State) (x0 y0 : JS.number)
             (id : String.string),
         idle s ->
         activeMapPosition v = Some p -> isDraggable v = true ->
         snd (run s [(v, MouseDownOnUserMelody x0 y0); (v, MouseUp);
                     (v, ClickOnNode id)])
         = [onNodeClick id])
  /\ (forall (v : View) (p : MapPosition) (c : Container) (s : State)
             (x0 y0 : JS.number)
             (points : list (JS.number * JS.number))
             (lastPoint : JS.number * JS.number) (id : String.string),
         idle s ->
         activeMapPosition v = Some p -> isDraggable v = true ->
         chartContainer v = Some c -> nonEmpty c ->
         let live := dragPosition (domainShown (domain s) c x0 y0 points) c
                                  (fst lastPoint) (snd lastPoint) in
         domain (fst (run s ((v, MouseDownOnUserMelody x0 y0) :: moves v points)))
         = domainShown (domain s) c x0 y0 points
         /\ transientPosition
              (fst (run s ((v, MouseDownOnUserMelody x0 y0)
                             :: moves v (points ++ [lastPoint]))))
            = Some live
         /\ snd (run s ((v, MouseDownOnUserMelody x0 y0)
                          :: moves v (points ++ [lastPoint])
                          ++ [(v, MouseUp); (v, ClickOnNode id)]))
            = [onUserMelodyMove live]).
Proof.
  split; [|split].
  - intros v v' s x0 y0 [Hd Hp]. rewrite !run_cons. cbn [run fst snd]. handlers.
    destruct (activeMapPosition v) as [p|]; [destruct (isDraggable v)|];
      cbn; rewrite ?Hd; reflexivity.
  - intros v p s x0 y0 id [Hd Hp] Ha Hdr. rewrite !run_cons.
    rewrite (step_down_draggable v p s x0 y0 Ha Hdr). reflexivity.
  - intros v p c s x0 y0 points lastPoint id [Hd Hp] Ha Hdr Hc _ live.
    set (start := mkPanStart x0 y0 (dom_x (domain s)) (dom_y (domain s))).
    set (s1 := mkState true (Some p) false (domain s) true (Some start)).
    assert (E : forall rest,
               run s ((v, MouseDownOnUserMelody x0 y0) :: rest)
               = (fst (run s1 rest), snd (run s1 rest))).
    { intros rest. rewrite run_cons, (step_down_draggable v p s x0 y0 Ha Hdr).
      reflexivity. }
    split; [|split].
    + rewrite E. cbn [fst]. unfold domainShown.
      destruct points as [|xy tl] using rev_ind.
      * reflexivity.
      * rewrite (run_moves v c start tl xy s1 Hc eq_refl eq_refl eq_refl).
        cbn [fst domain]. rewrite rev_app_distr. reflexivity.
    + rewrite E. cbn [fst].
      rewrite (run_moves v c start points lastPoint s1 Hc eq_refl eq_refl eq_refl).
      reflexivity.
    + change ((v, MouseDownOnUserMelody x0 y0)
                :: moves v (points ++ [lastPoint])
                ++ [(v, MouseUp); (v, ClickOnNode id)])
        with ((v, MouseDownOnUserMelody x0 y0)
                :: (moves v (points ++ [lastPoint])
                      ++ [(v, MouseUp); (v, ClickOnNode id)])).
      rewrite E. cbn [snd]. rewrite run_app.
      rewrite (run_moves v c start points lastPoint s1 Hc eq_refl eq_refl eq_refl).
      reflexivity.
Qed.

Lemma click_versus_drag_witness :
  idle Samples.zoomed
  /\ nonEmpty Samples.container
  /\ snd (run Samples.zoomed
              ((Samples.view, MouseDownOnUserMelody 420 320)
                 :: moves Samples.view ([(520, 320)] ++ [(620, 320)])
                 ++ [(Samples.view, MouseUp);
                     (Samples.view, ClickOnNode String.EmptyString)]))
     = [onUserMelodyMove
          (dragPosition
             (domainShown (domain Samples.zoomed) Samples.container 420 320
                          [(520, 320)])
             Samples.container 620 320)]
  /\ pos_x (dragPosition
              (domainShown (domain Samples.zoomed) Samples.container 420 320
                           [(520, 320)])
              Samples.container 620 320)
     == 1270 # 21
  /\ pos_x (dragPosition (domain Samples.zoomed) Samples.container 620 320)
     == 70.
Proof.
  assert (Hi : idle Samples.zoomed) by (split; reflexivity).
  assert (Hn : nonEmpty Samples.container)
    by (unfold nonEmpty; simpl; lra).
  split; [exact Hi|]. split; [exact Hn|].
  split; [|split; reflexivity].
  exact (proj2 (proj2 (proj2 (proj2 click_versus_drag)
                             Samples.view (mkMapPosition 150 (-20))
                             Samples.container
                             Samples.zoomed 420 320 [(520, 320)] (620, 320)
                             String.EmptyString
                             Hi eq_refl eq_refl eq_refl Hn))).
Defined.

Lemma step_liveInSquare (v : View) (s : State) (e : Event) :
  liveInSquare s ->
  liveInSquare (fst (step v s e))
  /\ forall p, In (onUserMelodyMove p) (snd (step v s e)) -> inSquare p.
Proof.
  intros Hinv. unfold liveInSquare in *.
  destruct e as [x y|x y|x y| |f| |id|]; handlers.
  - destruct (activeMapPosition v) as [p0|]; [destruct (isDraggable v)|];
      cbn; (split; [|intros p []]); try exact Hinv.
    intros H; discriminate H.
  - cbn. split; [exact Hinv | intros p []].
  - destruct (isDragging s); [destruct (chartContainer v) as [c|]|]; cbn.
    + split; [|intros p []].
      destruct (isPanning s); [destruct (panStartRef s) as [start|]|]; cbn;
        intros _ p Hp; injection Hp as <-; apply dragPosition_inSquare.
    + split; [|intros p []].
      destruct (isPanning s); [destruct (panStartRef s) as [start|]|]; exact Hinv.
    + split; [|intros p []].
      destruct (isPanning s);
        [destruct (panStartRef s) as [start|]; [destruct (chartContainer v)|]|];
        exact Hinv.
  - destruct (isDragging s); cbn.
    + split; [destruct (isPanning s); exact Hinv|].
      destruct (transientPosition s) as [p0|] eqn:Et; [|intros p []].
      destruct (didDragRef s) eqn:Ed; [|intros p []].
      intros p [E|[]]. injection E as <-. now apply Hinv.
    + split; [destruct (isPanning s); exact Hinv | intros p []].
  - cbn. split; [exact Hinv | intros p []].
  - cbn. split; [exact Hinv | intros p []].
  - cbn. split; [exact Hinv|].
    destruct (didDragRef s); cbn; [intros p [] | intros p [E|[]]].
    discriminate E.
  - cbn. split; [|intros p []]. intros _ p Hp. discriminate Hp.
Qed.

Lemma run_liveInSquare (trace : list (View * Event)) :
  forall s, liveInSquare s ->
            forall p, In (onUserMelodyMove p) (snd (run s trace)) -> inSquare p.
Proof.
  induction trace as [|[v e] rest IH]; intros s Hinv p; simpl; [intros []|].
  destruct (step_liveInSquare v s e Hinv) as [Hnext Hout].
  destruct (step v s e) as [s1 o1]. simpl in Hnext, Hout.
  specialize (IH s1 Hnext p).
  destruct (run s1 rest) as [s2 o2]. simpl in IH |- *.
  intros Hp. apply in_app_or in Hp as [Hp|Hp]; [now apply Hout | now apply IH].
Qed.

(** C10. Whatever the sequence of handler invocations from the initial
    state, with containers of non-zero size, and whatever the stored
    map position of the user's point, every position passed to
    [onUserMelodyMove] has both coordinates in [[0, 100]]: a pointer-down
    stores the point's position and clears the did-move flag, a
    pointer-up only passes the live position on when the flag is set,
    and the flag is only set by a pointer-move, which stores a position
    clamped on both axes. *)
Theorem emitted_positions_in_square
        (trace : list (View * Event)) (p : MapPosition) :
  Forall (fun ve => wellFormed (fst ve)) trace ->
  In (onUserMelodyMove p) (snd (run initialState trace)) ->
  inSquare p.
Proof.
  intros _. apply run_liveInSquare.
  intros H. discriminate H.
Qed.

Lemma emitted_positions_in_square_witness :
  Forall (fun ve => wellFormed (fst ve)) Samples.dragTrace
  /\ In (onUserMelodyMove (dragPosition fullDomain Samples.container 2000 170))
        (snd (run initialState Samples.dragTrace))
  /\ inSquare (dragPosition fullDomain Samples.container 2000 170).
Proof.
  assert (Hw : Forall (fun ve => wellFormed (fst ve)) Samples.dragTrace).
  { repeat constructor; unfold wellFormed, nonEmpty; simpl; lra. }
  assert (Hin : In (onUserMelodyMove
                      (dragPosition fullDomain Samples.container 2000 170))
                   (snd (run initialState Samples.dragTrace)))
    by (left; reflexivity).
  split; [exact Hw|]. split; [exact Hin|].
  exact (emitted_positions_in_square
           Samples.dragTrace
           (dragPosition fullDomain Samples.container 2000 170) Hw Hin).
Defined.

End DragClaims.

(** ** The recorder hook *)

Section RecorderFacts.
Import Recorder.

Lemma recorder_run_cons (s : State) (e : Event) (rest : list Event) :
  run s (e :: rest)
  = (fst (run (fst (step s e)) rest),
     snd (step s e) ++ snd (run (fst (step s e)) rest)).
Proof.
  cbn [run]. destruct (step s e) as [s1 o1]. cbn [fst snd].
  now destruct (run s1 rest) as [s2 o2].
Qed.

Lemma recorder_run_app (s : State) (t1 t2 : list Event) :
  run s (t1 ++ t2)
  = (fst (run (fst (run s t1)) t2),
     snd (run s t1) ++ snd (run (fst (run s t1)) t2)).
Proof.
  revert s. induction t1 as [|e tl IH]; intros s.
  - cbn [app run fst snd]. now destruct (run s t2).
  - cbn [app]. rewrite !recorder_run_cons, IH. cbn [fst snd].
    now rewrite app_assoc.
Qed.

(** A key event calls its feedback callback and nothing else, whether
    or not a recording is running. *)
Lemma key_feedback (s : State) (e : Event) :
  isKeyEvent e -> snd (step s e) = feedback e.
Proof. destruct e; cbn; intros H; try contradiction; reflexivity. Qed.

(** X1. Key events always give feedback, and outside a recording they do
    nothing else: whatever the state, a sequence of note-on and note-off
    events calls exactly [onNoteOn] with the pitch of each note-on and
    [onNoteOff] with the pitch of each note-off, in the order of the
    events; and when the recorder is not recording, the state is left as
    it was and nothing is delivered. *)
Theorem keys_outside_recording (s : State) (trace : list Event) :
  Forall isKeyEvent trace ->
  snd (run s trace) = flat_map feedback trace
  /\ (isRecording (recordingState s) = false ->
      fst (run s trace) = s
      /\ length (snd (run s trace)) = length trace
      /\ delivered (snd (run s trace)) = None).
Proof.
  intros Hkeys. split.
  - revert s. induction Hkeys as [|e rest He Hrest IH]; intros s; [reflexivity|].
    rewrite recorder_run_cons. cbn [snd flat_map].
    now rewrite (key_feedback s e He), IH.
  - intros Hrec. induction Hkeys as [|e rest He Hrest IH].
    + cbn. repeat split.
    + rewrite recorder_run_cons.
      assert (Hstep : fst (step s e) = s
                      /\ exists c, snd (step s e) = [c] /\ delivered [c] = None).
      { destruct e as [p v now|p now| | |]; try contradiction; cbn;
          unfold noteOn, noteOff; rewrite Hrec; cbn;
          (split; [reflexivity|]); eexists; split; reflexivity. }
      destruct Hstep as [Hs (c & Hc & Hd)]. rewrite Hs, Hc.
      destruct IH as (IH1 & IH2 & IH3). cbn [fst snd app length].
      repeat split; [exact IH1 | now rewrite IH2 |].
      destruct c; cbn in Hd |- *; try exact IH3. discriminate Hd.
Qed.

Lemma keys_outside_recording_witness :
  isRecording (recordingState initialState) = false
  /\ Forall isKeyEvent [NoteOn 60 (9 # 10) 5; NoteOff 60 9]
  /\ snd (run initialState [NoteOn 60 (9 # 10) 5; NoteOff 60 9])
     = [onNoteOn 60; onNoteOff 60]
  /\ fst (run initialState [NoteOn 60 (9 # 10) 5; NoteOff 60 9]) = initialState.
Proof.
  assert (H1 : isRecording (recordingState initialState) = false) by reflexivity.
  assert (H2 : Forall isKeyEvent [NoteOn 60 (9 # 10) 5; NoteOff 60 9])
    by (repeat constructor).
  split; [exact H1|]. split; [exact H2|].
  split.
  - exact (proj1 (keys_outside_recording initialState _ H2)).
  - exact (proj1 (proj2 (keys_outside_recording initialState _ H2) H1)).
Defined.

(** *** The map of held notes *)

Lemma map_get_In (m : NoteMap) (key : Z) (d : NoteOnData) :
  map_get m key = Some d -> In (key, d) m.
Proof.
  induction m as [|[k v] tl IH]; cbn; [discriminate|].
  destruct (Z.eqb_spec k key) as [->|Hne].
  - intros H. injection H as ->. now left.
  - intros H. right. now apply IH.
Qed.

Lemma map_get_None (m : NoteMap) (key : Z) :
  map_get m key = None <-> ~ In key (map fst m).
Proof.
  induction m as [|[k v] tl IH]; cbn; [tauto|].
  destruct (Z.eqb_spec k key) as [->|Hne].
  - split; [discriminate | intros H; exfalso; apply H; now left].
  - rewrite IH. split; [intros H [E|F]; [now apply Hne | now apply H]|tauto].
Qed.

Lemma map_set_In (m : NoteMap) (key : Z) (value : NoteOnData) x :
  In x (map_set m key value) -> x = (key, value) \/ In x m.
Proof.
  induction m as [|[k v] tl IH]; cbn.
  - intros [<-|[]]. now left.
  - destruct (Z.eqb_spec k key) as [->|Hne]; cbn.
    + intros [<-|H]; [now left | right; now right].
    + intros [<-|H]; [right; now left|].
      destruct (IH H) as [E|E]; [now left | right; now right].
Qed.

Lemma map_delete_In (m : NoteMap) (key : Z) x :
  In x (map_delete m key) -> In x m.
Proof.
  induction m as [|[k v] tl IH]; cbn; [tauto|].
  destruct (Z.eqb k key); cbn; [now right|].
  intros [<-|H]; [now left | right; now apply IH].
Qed.

Lemma map_set_keys (m : NoteMap) (key : Z) (value : NoteOnData) :
  map fst (map_set m key value)
  = if existsb (Z.eqb key) (map fst m) then map fst m else map fst m ++ [key].
Proof.
  induction m as [|[k v] tl IH]; cbn; [reflexivity|].
  rewrite (Z.eqb_sym key k).
  destruct (Z.eqb_spec k key) as [->|Hne]; cbn; [reflexivity|].
  rewrite IH. now destruct (existsb (Z.eqb key) (map fst tl)).
Qed.

Lemma map_delete_keys_incl (m : NoteMap) (key k : Z) :
  In k (map fst (map_delete m key)) -> In k (map fst m).
Proof.
  intros H. apply in_map_iff in H as ([k' d] & <- & Hin).
  apply map_delete_In in Hin. now apply (in_map fst) in Hin.
Qed.

Lemma map_set_length_new (m : NoteMap) (key : Z) (value : NoteOnData) :
  ~ In key (map fst m) ->
  length (map_set m key value) = S (length m).
Proof.
  induction m as [|[k v] tl IH]; cbn; [reflexivity|].
  intros H. destruct (Z.eqb_spec k key) as [->|Hne]; [tauto|].
  cbn. rewrite IH; tauto.
Qed.

Lemma map_set_length_le (m : NoteMap) (key : Z) (value : NoteOnData) :
  (length (map_set m key value) <= S (length m))%nat.
Proof.
  induction m as [|[k v] tl IH]; cbn; [lia|].
  destruct (Z.eqb k key); cbn; lia.
Qed.

Lemma map_delete_length (m : NoteMap) (key : Z) (d : NoteOnData) :
  map_get m key = Some d ->
  S (length (map_delete m key)) = length m.
Proof.
  induction m as [|[k v] tl IH]; cbn; [discriminate|].
  destruct (Z.eqb k key); [reflexivity|].
  intros H. cbn. now rewrite IH.
Qed.

(** *** Stopping *)

Lemma finalize_spec (start : JS.number) (clock : nat -> JS.number)
      (held : NoteMap) :
  forall (i : nat) (recorded : list MidiNote),
    exists added,
      fst (finalize start clock i held recorded) = recorded ++ added
      /\ Forall2 (fun entry note =>
                    exists noteOffTime,
                      note = finishedNote start (fst entry) (snd entry) noteOffTime
                      /\ exists j, noteOffTime = clock j)
                 held added
      /\ snd (finalize start clock i held recorded)
         = map (fun entry => onNoteOff (fst entry)) held.
Proof.
  induction held as [|[p d] tl IH]; intros i recorded; cbn [finalize fst snd].
  - exists []. rewrite app_nil_r. repeat split. constructor.
  - destruct (IH (S i) (recorded ++ [finishedNote start p d (clock i)]))
      as (added & Hf & Hall & Hs).
    exists (finishedNote start p d (clock i) :: added).
    rewrite Hf, <- app_assoc. cbn [app map fst]. rewrite Hs.
    repeat split. constructor; [|exact Hall].
    exists (clock i). split; [reflexivity | now exists i].
Qed.

(** X3. Stopping a recording loses no held key.  [stopRecording] leaves
    no note held, keeps the notes recorded so far in front, adds exactly
    one note per key still held, in the order the keys were first
    pressed, each with the pitch, onset and velocity of its note-on,
    calls [onNoteOff] for each of them and then hands the whole list to
    [onRecordingComplete]. *)
Theorem stopRecording_flushes (s : State) (clock : nat -> JS.number) :
  exists added,
    activeNotes (fst (stopRecording s clock)) = []
    /\ recordingState (fst (stopRecording s clock)) = Processing
    /\ recordedNotes (fst (stopRecording s clock)) = recordedNotes s ++ added
    /\ length added = length (activeNotes s)
    /\ map pitch added = map (fun entry => inject_Z (fst entry)) (activeNotes s)
    /\ map velocity added
       = map (fun entry => Some (on_velocity (snd entry))) (activeNotes s)
    /\ map startTime added
       = map (fun entry =>
                (on_startTime (snd entry) - recordingStartTime s) / 1000)
             (activeNotes s)
    /\ snd (stopRecording s clock)
       = map (fun entry => onNoteOff (fst entry)) (activeNotes s)
             ++ [onRecordingComplete (recordedNotes s ++ added)].
Proof.
  unfold stopRecording. cbv zeta. cbn [fst snd activeNotes recordingState recordedNotes].
  destruct (finalize_spec (recordingStartTime s) clock (activeNotes s) 0
                          (recordedNotes s)) as (added & Hf & Hall & Hs).
  exists added. rewrite Hf, Hs.
  assert (Hshape : length added = length (activeNotes s)
                   /\ map pitch added
                      = map (fun entry => inject_Z (fst entry)) (activeNotes s)
                   /\ map velocity added
                      = map (fun entry => Some (on_velocity (snd entry)))
                            (activeNotes s)
                   /\ map startTime added
                      = map (fun entry =>
                               (on_startTime (snd entry) - recordingStartTime s)
                               / 1000)
                            (activeNotes s)).
  { clear Hf Hs. induction Hall as [|entry note held notes Hn Hrest IH].
    - repeat split.
    - destruct Hn as (t & -> & _). destruct IH as (I1 & I2 & I3 & I4).
      cbn [length map]. rewrite I1, I2, I3, I4. repeat split. }
  destruct Hshape as (H1 & H2 & H3 & H4).
  repeat split; assumption.
Qed.


Lemma finishedNote_nonNegative (start : JS.number) (pitch : Z) (d : NoteOnData)
      (noteOffTime : JS.number) :
  start <= on_startTime d -> on_startTime d <= noteOffTime ->
  nonNegative (finishedNote start pitch d noteOffTime).
Proof.
  intros H1 H2. unfold nonNegative, finishedNote. cbn [startTime duration].
  assert (E1 : (on_startTime d - start) / 1000
               == (on_startTime d - start) * (1 # 1000)) by reflexivity.
  assert (E2 : (noteOffTime - on_startTime d) / 1000
               == (noteOffTime - on_startTime d) * (1 # 1000)) by reflexivity.
  split; lra.
Qed.

Lemma finalize_nonNegative (start t : JS.number) (clock : nat -> JS.number)
      (held : NoteMap) :
  (forall i, t <= clock i) ->
  (forall key d, In (key, d) held -> start <= on_startTime d /\ on_startTime d <= t) ->
  forall i recorded,
    Forall nonNegative recorded ->
    Forall nonNegative (fst (finalize start clock i held recorded)).
Proof.
  intros Hclock. induction held as [|[p d] tl IH]; intros Hheld i recorded Hrec;
    cbn [finalize fst]; [exact Hrec|].
  apply IH.
  - intros key d' Hin. apply (Hheld key d'). now right.
  - apply Forall_app. split; [exact Hrec|]. constructor; [|constructor].
    destruct (Hheld p d (or_introl eq_refl)) as [H1 H2].
    apply finishedNote_nonNegative; [exact H1|]. specialize (Hclock i). lra.
Qed.

Lemma step_wellTimed (t : JS.number) (s : State) (e : Event) (rest : list Event) :
  timed t (e :: rest) -> wellTimed t s ->
  Forall deliveredNonNegative (snd (step s e))
  /\ exists t', timed t' rest /\ wellTimed t' (fst (step s e)).
Proof.
  intros Ht (Hrec & Hstart & Hact).
  destruct e as [p v now|p now|now|clock|]; cbn [timed] in Ht; cbn [step].
  - destruct Ht as [Hnow Hrest]. unfold noteOn. cbn [fst snd].
    split; [repeat constructor|]. exists now. split; [exact Hrest|].
    destruct (isRecording (recordingState s)) eqn:Er.
    + split; [exact Hrec|]. cbn [activeNotes recordingStartTime recordingState].
      specialize (Hstart eq_refl).
      split; [intros _; lra|].
      intros key d Hin. apply map_set_In in Hin as [E|Hin].
      * injection E as -> ->. cbn. lra.
      * destruct (Hact key d Hin). lra.
    + split; [exact Hrec|]. split; [rewrite Er; discriminate|].
      intros key d Hin. destruct (Hact key d Hin). lra.
  - destruct Ht as [Hnow Hrest]. unfold noteOff. cbn [fst snd].
    split; [repeat constructor|]. exists now. split; [exact Hrest|].
    destruct (isRecording (recordingState s)) eqn:Er.
    + specialize (Hstart eq_refl).
      destruct (map_get (activeNotes s) p) as [d|] eqn:Eg.
      * unfold wellTimed.
        cbn [activeNotes recordingStartTime recordingState recordedNotes].
        destruct (Hact p d (map_get_In _ _ _ Eg)) as [H1 H2].
        split; [|split].
        -- apply Forall_app. split; [exact Hrec|]. constructor; [|constructor].
           apply finishedNote_nonNegative; lra.
        -- intros _. lra.
        -- intros key d' Hin. apply map_delete_In in Hin.
           destruct (Hact key d' Hin). lra.
      * split; [exact Hrec|]. split; [intros _; lra|].
        intros key d Hin. destruct (Hact key d Hin). lra.
    + split; [exact Hrec|]. split; [rewrite Er; discriminate|].
      intros key d Hin. destruct (Hact key d Hin). lra.
  - destruct Ht as [Hnow Hrest]. cbn [fst snd].
    split; [constructor|]. exists now. split; [exact Hrest|].
    unfold startRecording, wellTimed.
    cbn [activeNotes recordingStartTime recordingState recordedNotes].
    split; [constructor|]. split; [intros _; lra | intros key d []].
  - destruct Ht as [Hclock Hrest]. unfold stopRecording. cbv zeta. cbn [fst snd].
    assert (Hfin : Forall nonNegative
                     (fst (finalize (recordingStartTime s) clock 0 (activeNotes s)
                                    (recordedNotes s))))
      by (apply (finalize_nonNegative _ t); assumption).
    split.
    + apply Forall_app. split; [|constructor; [exact Hfin | constructor]].
      destruct (finalize_spec (recordingStartTime s) clock (activeNotes s) 0
                              (recordedNotes s)) as (added & _ & _ & ->).
      apply Forall_forall. intros c Hc. apply in_map_iff in Hc as (x & <- & _).
      exact I.
    + exists t. split; [exact Hrest|]. unfold wellTimed.
      cbn [activeNotes recordingStartTime recordingState recordedNotes].
      split; [exact Hfin|]. split; [discriminate | intros key d []].
  - cbn [fst snd]. split; [constructor|]. exists t. split; [exact Ht|].
    unfold wellTimed.
    cbn [activeNotes recordingStartTime recordingState recordedNotes].
    split; [exact Hrec|]. split; [discriminate | exact Hact].
Qed.

Lemma run_wellTimed (trace : list Event) :
  forall t s,
    timed t trace -> wellTimed t s ->
    Forall deliveredNonNegative (snd (run s trace)).
Proof.
  induction trace as [|e rest IH]; intros t s Ht Hinv; [constructor|].
  rewrite recorder_run_cons. cbn [snd]. apply Forall_app.
  destruct (step_wellTimed t s e rest Ht Hinv) as (Hout & t' & Ht' & Hinv').
  split; [exact Hout | now apply (IH t')].
Qed.

(** X2. With a clock that never runs backwards, every note the recorder
    delivers has a start time and a duration that are not negative,
    whatever the sequence of key presses, releases, starts and stops
    since the hook was mounted. *)
Theorem delivered_notes_nonNegative
        (t : JS.number) (trace : list Event) (notes : list MidiNote) :
  timed t trace ->
  In (onRecordingComplete notes) (snd (run initialState trace)) ->
  Forall nonNegative notes.
Proof.
  intros Ht Hin.
  assert (Hinv : wellTimed t initialState).
  { unfold wellTimed, initialState. cbn. repeat split.
    - constructor.
    - discriminate.
    - destruct H.
    - destruct H. }
  pose proof (run_wellTimed trace t initialState Ht Hinv) as Hall.
  rewrite Forall_forall in Hall. exact (Hall _ Hin).
Qed.

Lemma delivered_notes_nonNegative_witness :
  timed 0 [StartRecording 100; NoteOn 60 (9 # 10) 150; NoteOn 64 (9 # 10) 180;
           NoteOff 60 400; StopRecording (fun i => 500 + inject_Z (Z.of_nat i))]
  /\ Forall nonNegative
            [finishedNote 100 60 (mkNoteOnData 150 (9 # 10)) 400;
             finishedNote 100 64 (mkNoteOnData 180 (9 # 10)) (500 + inject_Z 0)].
Proof.
  assert (Ht : timed 0 [StartRecording 100; NoteOn 60 (9 # 10) 150;
                        NoteOn 64 (9 # 10) 180; NoteOff 60 400;
                        StopRecording (fun i => 500 + inject_Z (Z.of_nat i))]).
  { cbn. repeat split; try lra.
    intros i. assert (H : 0 <= inject_Z (Z.of_nat i)).
    { change 0 with (inject_Z 0). rewrite <- Zle_Qle. lia. }
    lra. }
  split; [exact Ht|].
  apply (delivered_notes_nonNegative 0 _ _ Ht).
  do 4 right. left. reflexivity.
Defined.


Lemma delivered_app (a b : list Callback) :
  delivered (a ++ b)
  = match delivered b with
    | Some notes => Some notes
    | None => delivered a
    end.
Proof.
  induction a as [|c tl IH]; cbn [app delivered].
  - now destruct (delivered b).
  - destruct c; rewrite ?IH; try reflexivity.
    destruct (delivered b); [reflexivity|]. reflexivity.
Qed.

Lemma delivered_noteOffs (held : NoteMap) :
  delivered (map (fun entry => onNoteOff (fst entry)) held) = None.
Proof. induction held as [|x tl IH]; cbn; [reflexivity | exact IH]. Qed.

(** During a recording, recorded and held notes together grow by at most
    one per note-on, and by exactly one when the pitch is not held. *)
Lemma keys_count (keys : list Event) :
  Forall isKeyEvent keys ->
  forall s,
    isRecording (recordingState s) = true ->
    isRecording (recordingState (fst (run s keys))) = true
    /\ delivered (snd (run s keys)) = None
    /\ (length (recordedNotes (fst (run s keys)))
        + length (activeNotes (fst (run s keys)))
        <= length (recordedNotes s) + length (activeNotes s)
           + length (pressed keys))%nat
    /\ ((forall k, In k (map fst (activeNotes s)) -> ~ In k (pressed keys)) ->
        NoDup (pressed keys) ->
        (length (recordedNotes (fst (run s keys)))
         + length (activeNotes (fst (run s keys)))
         = length (recordedNotes s) + length (activeNotes s)
           + length (pressed keys))%nat).
Proof.
  induction 1 as [|e rest He Hrest IH]; intros s Hrec.
  - cbn. repeat split; try lia. exact Hrec.
  - rewrite recorder_run_cons. cbn [fst snd].
    destruct e as [p v now|p now| | |]; try contradiction; cbn [step pressed].
    + unfold noteOn. rewrite Hrec. cbn [fst snd].
      set (s1 := mkState (recordingState s)
                         (map_set (activeNotes s) p (mkNoteOnData now v))
                         (recordedNotes s) (recordingStartTime s)).
      destruct (IH s1 Hrec) as (I1 & I2 & I3 & I4).
      pose proof (map_set_length_le (activeNotes s) p (mkNoteOnData now v)) as Hle.
      cbn [recordedNotes activeNotes s1] in I3, I4.
      split; [exact I1|]. split; [cbn [app delivered]; exact I2|].
      split; [cbn [length]; lia|].
      intros Hheld Hnd. apply NoDup_cons_iff in Hnd as [Hp Hnd].
      assert (Hnew : ~ In p (map fst (activeNotes s))).
      { intros Hin. apply (Hheld p Hin). now left. }
      rewrite I4.
      * rewrite (map_set_length_new _ _ _ Hnew). cbn [length]. lia.
      * intros k Hk. apply in_map_iff in Hk as ([k' d] & <- & Hin).
        apply map_set_In in Hin as [E|Hin].
        -- injection E as -> _. exact Hp.
        -- intros Hr. apply (Hheld k').
           ++ now apply (in_map fst) in Hin.
           ++ now right.
      * exact Hnd.
    + unfold noteOff. rewrite Hrec. cbn [fst snd].
      destruct (map_get (activeNotes s) p) as [d|] eqn:Eg.
      * set (s1 := mkState (recordingState s) (map_delete (activeNotes s) p)
                           (recordedNotes s
                              ++ [finishedNote (recordingStartTime s) p d now])
                           (recordingStartTime s)).
        destruct (IH s1 Hrec) as (I1 & I2 & I3 & I4).
        pose proof (map_delete_length _ _ _ Eg) as Hdel.
        cbn [recordedNotes activeNotes s1] in I3, I4.
        rewrite length_app in I3, I4. cbn [length] in I3, I4.
        split; [exact I1|]. split; [cbn [app delivered]; exact I2|].
        split; [lia|].
        intros Hheld Hnd. rewrite I4; [lia | | exact Hnd].
        intros k Hk. apply Hheld. now apply map_delete_keys_incl in Hk.
      * destruct (IH s Hrec) as (I1 & I2 & I3 & I4).
        split; [exact I1|]. split; [cbn [app delivered]; exact I2|].
        split; [exact I3|]. exact I4.
Qed.

(** X4. A recording session (start, key presses and releases, stop)
    delivers one list of notes; it never holds more notes than keys were
    pressed, and when no pitch is pressed twice it holds exactly one note
    per key press, whether or not the key was released before the
    stop. *)
Theorem session_note_count
        (s : State) (t : JS.number) (keys : list Event) (clock : nat -> JS.number) :
  Forall isKeyEvent keys ->
  exists notes,
    delivered (snd (run s (StartRecording t :: keys ++ [StopRecording clock])))
    = Some notes
    /\ (length notes <= length (pressed keys))%nat
    /\ (NoDup (pressed keys) -> length notes = length (pressed keys)).
Proof.
  intros Hkeys.
  rewrite recorder_run_cons, recorder_run_app. cbn [step fst snd app].
  set (s0 := startRecording s t).
  destruct (keys_count keys Hkeys s0 eq_refl) as (I1 & I2 & I3 & I4).
  set (s1 := fst (run s0 keys)) in *.
  rewrite recorder_run_cons. cbn [step run fst snd]. rewrite app_nil_r.
  unfold stopRecording. cbv zeta. cbn [fst snd].
  destruct (finalize_spec (recordingStartTime s1) clock (activeNotes s1) 0
                          (recordedNotes s1)) as (added & Hf & Hall & Hs).
  rewrite Hf, Hs.
  exists (recordedNotes s1 ++ added).
  rewrite !delivered_app. cbn [delivered].
  pose proof (Forall2_length Hall) as Hlen.
  rewrite length_app. cbn [recordedNotes activeNotes s0 startRecording length] in I3, I4.
  split; [reflexivity|]. split; [lia|].
  intros Hnd. rewrite <- Hlen. apply I4; [intros k [] | exact Hnd].
Qed.

Lemma session_note_count_witness :
  Forall isKeyEvent [NoteOn 60 (9 # 10) 150; NoteOn 64 (9 # 10) 180; NoteOff 60 400]
  /\ exists notes,
       delivered
         (snd (run initialState
                   (StartRecording 100
                      :: [NoteOn 60 (9 # 10) 150; NoteOn 64 (9 # 10) 180;
                          NoteOff 60 400]
                      ++ [StopRecording (fun _ => 500)])))
       = Some notes
       /\ (length notes <= 2)%nat
       /\ (NoDup [60; 64]%Z -> length notes = 2%nat).
Proof.
  assert (H : Forall isKeyEvent
                     [NoteOn 60 (9 # 10) 150; NoteOn 64 (9 # 10) 180; NoteOff 60 400])
    by (repeat constructor).
  split; [exact H|].
  exact (session_note_count initialState 100 _ (fun _ => 500) H).
Defined.

(** *** MIDI messages *)

Lemma command_of_status (status : Z) :
  (0 <= status)%Z ->
  (Z.shiftr status 4 = 9 <-> 144 <= status <= 159)%Z
  /\ (Z.shiftr status 4 = 8 <-> 128 <= status <= 143)%Z.
Proof.
  intros Hs. rewrite Z.shiftr_div_pow2 by lia.
  change (2 ^ 4)%Z with 16%Z.
  pose proof (Z.div_mod status 16 ltac:(lia)) as Hdm.
  pose proof (Z.mod_pos_bound status 16 ltac:(lia)) as Hm.
  split; split; intros H; lia.
Qed.

(** X5. [handleMidiMessage] decodes a channel-voice message by the high
    nibble of its status byte alone, on any of the 16 channels: a
    note-on (status 144..159) with a velocity above zero presses the key
    with velocity [v / 127], which lies in (0, 1] for a data byte up to
    127; a note-off (status 128..143), or a note-on with velocity zero,
    releases it; any other status does nothing.  A note-on without a
    velocity byte counts as velocity 1. *)
Theorem handleMidiMessage_decodes :
  (forall (status pitch velocity : Z) (rest : list Z),
      (144 <= status <= 159)%Z -> (0 < velocity)%Z ->
      handleMidiMessage (status :: pitch :: velocity :: rest)
      = callNoteOn (Some pitch) (inject_Z velocity / 127)
      /\ ((velocity <= 127)%Z ->
          0 < inject_Z velocity / 127 /\ inject_Z velocity / 127 <= 1))
  /\ (forall (status pitch velocity : Z) (rest : list Z),
         (128 <= status <= 143)%Z \/ ((144 <= status <= 159)%Z /\ velocity = 0%Z) ->
         handleMidiMessage (status :: pitch :: velocity :: rest)
         = callNoteOff (Some pitch))
  /\ (forall (status pitch velocity : Z) (rest : list Z),
         (0 <= status < 128)%Z \/ (160 <= status)%Z ->
         handleMidiMessage (status :: pitch :: velocity :: rest) = noAction)
  /\ (forall (status pitch : Z),
         (144 <= status <= 159)%Z ->
         handleMidiMessage [status; pitch] = callNoteOn (Some pitch) (1 / 127)).
Proof.
  split; [|split; [|split]].
  - intros status pitch velocity rest Hs Hv.
    destruct (command_of_status status ltac:(lia)) as [H9 _].
    unfold handleMidiMessage. cbn [nth nth_error length Nat.ltb Nat.leb].
    apply H9 in Hs. rewrite Hs. cbn [Z.eqb Pos.eqb andb].
    apply Z.ltb_lt in Hv as Hv'. rewrite Hv'. split; [reflexivity|].
    intros Hmax.
    assert (E : inject_Z velocity / 127 == inject_Z velocity * (1 # 127))
      by reflexivity.
    assert (H0 : 0 < inject_Z velocity)
      by (change 0 with (inject_Z 0); rewrite <- Zlt_Qlt; lia).
    assert (H1 : inject_Z velocity <= 127)
      by (change 127 with (inject_Z 127); rewrite <- Zle_Qle; lia).
    split; lra.
  - intros status pitch velocity rest Hs.
    unfold handleMidiMessage. cbn [nth nth_error length Nat.ltb Nat.leb].
    destruct Hs as [Hs|[Hs ->]].
    + destruct (command_of_status status ltac:(lia)) as [_ H8].
      apply H8 in Hs. rewrite Hs. reflexivity.
    + destruct (command_of_status status ltac:(lia)) as [H9 _].
      apply H9 in Hs. rewrite Hs. reflexivity.
  - intros status pitch velocity rest Hs.
    unfold handleMidiMessage. cbn [nth nth_error length Nat.ltb Nat.leb].
    assert (Hpos : (0 <= status)%Z) by lia.
    destruct (command_of_status status Hpos) as [H9 H8].
    destruct (Z.eqb_spec (Z.shiftr status 4) 9) as [E9|N9];
      [apply H9 in E9; lia|].
    destruct (Z.eqb_spec (Z.shiftr status 4) 8) as [E8|N8];
      [apply H8 in E8; lia|].
    reflexivity.
  - intros status pitch Hs.
    destruct (command_of_status status ltac:(lia)) as [H9 _].
    unfold handleMidiMessage. cbn [nth nth_error length Nat.ltb Nat.leb].
    apply H9 in Hs. rewrite Hs. reflexivity.
Qed.

Lemma handleMidiMessage_decodes_witness :
  (144 <= 147 <= 159)%Z /\ (0 < 100)%Z
  /\ handleMidiMessage [147; 60; 100]%Z
     = callNoteOn (Some 60%Z) (inject_Z 100 / 127).
Proof.
  assert (H1 : (144 <= 147 <= 159)%Z) by lia.
  assert (H2 : (0 < 100)%Z) by lia.
  split; [exact H1|]. split; [exact H2|].
  exact (proj1 (proj1 handleMidiMessage_decodes 147%Z 60%Z 100%Z [] H1 H2)).
Defined.

End RecorderFacts.

(** ** The map view: gestures *)

Section GestureFacts.
Import MusicMap Gestures.

Ltac gesture_handlers :=
  unfold step, handleMouseDownOnUserMelody, handleMouseMove, handleMouseUp,
    onMouseDown, handlePanMove, handlePanUp, handleZoom, handleResetZoom,
    onClick.

Lemma panDomain_valid (start : PanStart) (c : Container) (clientX clientY : JS.number) :
  inside (domainX start) -> inside (domainY start) ->
  validDomain (panDomain start c clientX clientY).
Proof.
  intros Hx Hy. unfold inside in Hx, Hy.
  unfold panDomain, validDomain, inside. cbv zeta. cbn [dom_x dom_y fst snd].
  repeat match goal with
         | |- context [clamp ?v 0 ?hi] =>
             let H := fresh "Hc" in
             assert (H : 0 <= clamp v 0 hi <= hi) by (apply clamp_range; lra);
             generalize dependent (clamp v 0 hi); intros
         end.
  lra.
Qed.

Lemma zoomDomain_valid (factor : JS.number) (prev : Domain) :
  validDomain prev -> 0 < factor -> validDomain (zoomDomain factor prev).
Proof.
  intros [Hx Hy] Hf. unfold validDomain.
  destruct (zoomDomain_axes factor prev) as [-> ->].
  split; apply zoomAxis_inside; apply Qmult_le_0_compat;
    unfold inside, width in *; lra.
Qed.

Lemma step_valid (v : View) (s : State) (e : Event) :
  zoomsIn e ->
  validDomain (domain s) -> validPanStart s ->
  validDomain (domain (fst (step v s e))) /\ validPanStart (fst (step v s e)).
Proof.
  intros Hz Hd Hp. unfold validPanStart in *.
  destruct e as [x y|x y|x y| |f| |id|]; gesture_handlers; cbn [fst snd].
  - destruct (activeMapPosition v); [destruct (isDraggable v)|]; cbn;
      (split; [exact Hd | exact Hd]).
  - cbn. split; [exact Hd | exact Hd].
  - destruct (isDragging s); [destruct (chartContainer v) as [c|]|];
      cbn [isPanning panStartRef domain];
      destruct (isPanning s);
      try (destruct (panStartRef s) as [start|] eqn:Es);
      try (destruct (chartContainer v) as [c'|]);
      cbn [isPanning panStartRef domain]; rewrite ?Es;
      try (split; [exact Hd | exact Hp]);
      (split; [apply panDomain_valid; tauto | exact Hp]).
  - destruct (isDragging s); cbn [fst isPanning panStartRef domain];
      destruct (isPanning s); cbn [isPanning panStartRef domain];
      (split; [exact Hd | try exact Hp; exact I]).
  - cbn. split; [now apply zoomDomain_valid | exact Hp].
  - cbn. split; [|exact Hp].
    unfold validDomain, inside, fullDomain. cbn. lra.
  - tauto.
  - cbn. tauto.
Qed.

(** X6. The viewport never leaves the plane: whatever the sequence of
    pointer-downs, moves, ups, zooms (factor above zero), resets and
    clicks from the initial state, with containers of non-zero size, both
    axis ranges of the domain stay inside [[0, 100]] with
    [min <= max]. *)
Theorem domain_always_valid (trace : list (View * Event)) :
  Forall (fun ve => wellFormed (fst ve) /\ zoomsIn (snd ve)) trace ->
  validDomain (domain (fst (run initialState trace))).
Proof.
  intros Hall.
  assert (Hgen : forall s, validDomain (domain s) -> validPanStart s ->
                           validDomain (domain (fst (run s trace)))).
  { induction Hall as [|[v e] rest [_ Hz] Hrest IH]; intros s Hd Hp.
    - exact Hd.
    - rewrite run_cons. cbn [fst].
      destruct (step_valid v s e Hz Hd Hp) as [Hd' Hp'].
      now apply IH. }
  apply Hgen.
  - unfold validDomain, inside, initialState, fullDomain. cbn. lra.
  - exact I.
Qed.

Lemma domain_always_valid_witness :
  Forall (fun ve => wellFormed (fst ve) /\ zoomsIn (snd ve))
         [(Samples.view, Zoom (8 # 10)); (Samples.view, MouseDownOnPlot 300 300);
          (Samples.view, MouseMove 100 350); (Samples.view, MouseUp);
          (Samples.view, Zoom (5 # 4))]
  /\ validDomain
       (domain (fst (run initialState
                         [(Samples.view, Zoom (8 # 10));
                          (Samples.view, MouseDownOnPlot 300 300);
                          (Samples.view, MouseMove 100 350);
                          (Samples.view, MouseUp);
                          (Samples.view, Zoom (5 # 4))]))).
Proof.
  assert (H : Forall (fun ve => wellFormed (fst ve) /\ zoomsIn (snd ve))
                     [(Samples.view, Zoom (8 # 10));
                      (Samples.view, MouseDownOnPlot 300 300);
                      (Samples.view, MouseMove 100 350); (Samples.view, MouseUp);
                      (Samples.view, Zoom (5 # 4))]).
  { repeat constructor; unfold wellFormed, nonEmpty; cbn; lra. }
  split; [exact H|].
  exact (domain_always_valid _ H).
Defined.





(** *** Panning *)







(** Once a drag has moved, and as long as the user's point is not pressed
    again, no handler calls a callback. *)
Lemma quiet_after_drag (trace : list (View * Event)) :
  Forall (fun ve => ~ isPressOnUserMelody (snd ve)) trace ->
  forall s,
    isDragging s = false -> didDragRef s = true ->
    snd (run s trace) = [].
Proof.
  induction 1 as [|[v e] rest He Hrest IH]; intros s Hd Hm; [reflexivity|].
  rewrite run_cons. cbn [snd] in He |- *.
  assert (Hstep : snd (step v s e) = []
                  /\ isDragging (fst (step v s e)) = false
                  /\ didDragRef (fst (step v s e)) = true).
  { destruct e as [x y|x y|x y| |f| |id|]; gesture_handlers; cbn [fst snd];
      try (exfalso; now apply He).
    - cbn. tauto.
    - rewrite Hd.
      destruct (isPanning s);
        [destruct (panStartRef s); [destruct (chartContainer v)|]|];
        cbn; tauto.
    - rewrite Hd. cbn [fst snd]. destruct (isPanning s); cbn; tauto.
    - cbn. tauto.
    - cbn. tauto.
    - rewrite Hm. tauto.
    - cbn. tauto. }
  destruct Hstep as (Ho & Hd' & Hm'). rewrite Ho. cbn [app].
  now apply IH.
Qed.

(** X9. After a drag, node clicks are ignored until the user's point is
    pressed again.  From an idle state, with the point draggable and the
    container mounted: a pointer-down on the point, one or more moves and
    the pointer-up request the variation once, with the position the
    last move computed on the domain then on screen, and whatever
    follows that is not a pointer-down on the user's point (clicks on any
    node, presses elsewhere, moves, pans, zooms) calls no callback at
    all; in particular no later click selects a node. *)
Theorem clicks_ignored_after_drag
        (v : View) (p : MapPosition) (c : Container) (s : State)
        (x0 y0 : JS.number)
        (points : list (JS.number * JS.number)) (lastPoint : JS.number * JS.number)
        (later : list (View * Event)) :
  idle s ->
  activeMapPosition v = Some p -> isDraggable v = true ->
  chartContainer v = Some c -> nonEmpty c ->
  Forall (fun ve => ~ isPressOnUserMelody (snd ve)) later ->
  snd (run s (((v, MouseDownOnUserMelody x0 y0)
                 :: moves v (points ++ [lastPoint]))
                ++ (v, MouseUp) :: later))
  = [onUserMelodyMove
       (dragPosition (domainShown (domain s) c x0 y0 points) c
                     (fst lastPoint) (snd lastPoint))].
Proof.
  intros [Hd Hp] Ha Hdr Hc _ Hlater.
  rewrite run_app.
  change ((v, MouseDownOnUserMelody x0 y0) :: moves v (points ++ [lastPoint]))
    with ([(v, MouseDownOnUserMelody x0 y0)] ++ moves v (points ++ [lastPoint])).
  rewrite run_app.
  set (start := mkPanStart x0 y0 (dom_x (domain s)) (dom_y (domain s))).
  assert (E : run s [(v, MouseDownOnUserMelody x0 y0)]
              = (mkState true (Some p) false (domain s) true (Some start), [])).
  { rewrite run_cons, (step_down_draggable v p s x0 y0 Ha Hdr). reflexivity. }
  rewrite E. cbn [fst snd].
  rewrite (run_moves v c start points lastPoint
                     (mkState true (Some p) false (domain s) true (Some start))
                     Hc eq_refl eq_refl eq_refl).
  cbn [fst snd app domain]. rewrite run_cons.
  gesture_handlers. cbn [fst snd isDragging transientPosition didDragRef isPanning].
  rewrite (quiet_after_drag later Hlater); reflexivity.
Qed.

Lemma clicks_ignored_after_drag_witness :
  idle Samples.zoomed /\ nonEmpty Samples.container
  /\ snd (run Samples.zoomed
              (((Samples.view, MouseDownOnUserMelody 420 320)
                  :: moves Samples.view ([(520, 320)] ++ [(620, 320)]))
                 ++ (Samples.view, MouseUp)
                 :: [(Samples.view, ClickOnNode LiteralIds.userMelody);
                     (Samples.view, MouseDownOnPlot 10 10);
                     (Samples.view, ClickOnNode String.EmptyString)]))
     = [onUserMelodyMove
          (dragPosition
             (domainShown (domain Samples.zoomed) Samples.container 420 320
                          [(520, 320)])
             Samples.container 620 320)].
Proof.
  assert (Hi : idle Samples.zoomed) by (split; reflexivity).
  assert (Hn : nonEmpty Samples.container) by (unfold nonEmpty; cbn; lra).
  assert (Hl : Forall (fun ve : View * Event => ~ isPressOnUserMelody (snd ve))
                      [(Samples.view, ClickOnNode LiteralIds.userMelody);
                       (Samples.view, MouseDownOnPlot 10 10);
                       (Samples.view, ClickOnNode String.EmptyString)])
    by (repeat constructor; intros []).
  split; [exact Hi|]. split; [exact Hn|].
  exact (clicks_ignored_after_drag
           Samples.view (mkMapPosition 150 (-20)) Samples.container Samples.zoomed
           420 320 [(520, 320)] (620, 320) _ Hi eq_refl eq_refl eq_refl Hn Hl).
Defined.

(** X11. No variation is ever requested while the user's point cannot be
    dragged: if in every view of a trace the point is not draggable or
    has no position, no handler calls [onUserMelodyMove], whatever the
    events.  The view [App] builds in the similarity mode is of that
    kind. *)
Theorem no_request_when_not_draggable :
  (forall (trace : list (View * Event)) (cb : Callback),
      Forall (fun ve => notDraggable (fst ve)) trace ->
      In cb (snd (run initialState trace)) ->
      ~ isVariationRequest cb)
  /\ (forall (userMelody : option Songs.Song) (container : option Container),
         notDraggable (Songs.viewOf Songs.global userMelody container))
  /\ (forall (um : Songs.Song) (container : option Container),
         Songs.globalMapPosition um = None ->
         notDraggable (Songs.viewOf Songs.synthesis (Some um) container)).
Proof.
  split; [|split].
  - intros trace cb Hall.
    assert (Hgen : forall s, isDragging s = false ->
                             In cb (snd (run s trace)) -> ~ isVariationRequest cb).
    { induction Hall as [|[v e] rest Hv Hrest IH]; intros s Hd; [intros []|].
      rewrite run_cons. cbn [fst snd] in Hv |- *. intros Hin.
      assert (Hstep : isDragging (fst (step v s e)) = false
                      /\ forall c, In c (snd (step v s e)) -> ~ isVariationRequest c).
      { destruct e as [x y|x y|x y| |f| |id|]; gesture_handlers; cbn [fst snd].
        - destruct Hv as [Hv|Hv]; rewrite Hv;
            [destruct (activeMapPosition v)|]; cbn; (split; [exact Hd | intros c0 []]).
        - cbn. split; [exact Hd | intros c0 []].
        - rewrite Hd.
          destruct (isPanning s);
            [destruct (panStartRef s); [destruct (chartContainer v)|]|];
            cbn; (split; [exact Hd | intros c0 []]).
        - rewrite Hd. cbn [fst snd].
          destruct (isPanning s); cbn; (split; [exact Hd | intros c0 []]).
        - cbn. split; [exact Hd | intros c0 []].
        - cbn. split; [exact Hd | intros c0 []].
        - split; [exact Hd|].
          destruct (didDragRef s); cbn; [intros c0 [] | intros c0 [<-|[]]].
          cbn. tauto.
        - cbn. split; [exact Hd | intros c0 []]. }
      destruct Hstep as [Hd' Hout].
      apply in_app_or in Hin as [Hin|Hin]; [now apply Hout | now apply (IH _ Hd')]. }
    apply Hgen. reflexivity.
  - intros userMelody container. left. reflexivity.
  - intros um container Hg. right. unfold Songs.viewOf, Songs.userMelodyForMap.
    cbn. rewrite Hg. reflexivity.
Qed.

Lemma no_request_when_not_draggable_witness :
  Forall (fun ve => notDraggable (fst ve))
         [(Songs.viewOf Songs.global None (Some Samples.container),
           MouseDownOnUserMelody 380 310);
          (Songs.viewOf Songs.global None (Some Samples.container), MouseMove 5 5);
          (Songs.viewOf Songs.global None (Some Samples.container), MouseUp)]
  /\ ~ In (onUserMelodyMove (mkMapPosition 0 0))
          (snd (run initialState
                    [(Songs.viewOf Songs.global None (Some Samples.container),
                      MouseDownOnUserMelody 380 310);
                     (Songs.viewOf Songs.global None (Some Samples.container),
                      MouseMove 5 5);
                     (Songs.viewOf Songs.global None (Some Samples.container),
                      MouseUp)])).
Proof.
  assert (H : Forall (fun ve => notDraggable (fst ve))
                     [(Songs.viewOf Songs.global None (Some Samples.container),
                       MouseDownOnUserMelody 380 310);
                      (Songs.viewOf Songs.global None (Some Samples.container),
                       MouseMove 5 5);
                      (Songs.viewOf Songs.global None (Some Samples.container),
                       MouseUp)])
    by (repeat constructor; left; reflexivity).
  split; [exact H|].
  intros Hin.
  exact (proj1 no_request_when_not_draggable _ _ H Hin I).
Defined.

(** *** The screen-to-data transform *)

Lemma scale_between (m w lo hi : Q) :
  0 < w -> 0 <= m -> m <= w -> lo <= hi ->
  lo <= m / w * (hi - lo) + lo /\ m / w * (hi - lo) + lo <= hi.
Proof.
  intros Hw Hm Hmw Hlh.
  assert (H0 : 0 <= m / w) by (apply Qle_shift_div_l; lra).
  assert (H1 : m / w <= 1) by (apply Qle_shift_div_r; lra).
  generalize dependent (m / w). intros t H0 H1. split; nra.
Qed.

(** X10. The position of a drag follows the pointer inside the visible
    window: for a domain inside [[0, 100]] and a pointer over the plot
    area of a container of non-zero size, the position [handleMouseMove]
    stores lies inside the current domain on both axes; the left and
    right edges of the plot give the domain's minimum and maximum x, and
    the top and bottom edges its maximum and minimum y. *)
Theorem dragPosition_in_domain
        (d : Domain) (c : Container) (clientX clientY : JS.number) :
  validDomain d -> nonEmpty c -> overPlot c clientX clientY ->
  (fst (dom_x d) <= pos_x (dragPosition d c clientX clientY)
   /\ pos_x (dragPosition d c clientX clientY) <= snd (dom_x d))
  /\ (fst (dom_y d) <= pos_y (dragPosition d c clientX clientY)
      /\ pos_y (dragPosition d c clientX clientY) <= snd (dom_y d))
  /\ (clientX == rect_left c + 20 ->
      pos_x (dragPosition d c clientX clientY) == fst (dom_x d))
  /\ (clientX == rect_left c + 20 + (rect_width c - 20 - 20) ->
      pos_x (dragPosition d c clientX clientY) == snd (dom_x d))
  /\ (clientY == rect_top c + 20 ->
      pos_y (dragPosition d c clientX clientY) == snd (dom_y d))
  /\ (clientY == rect_top c + 20 + (rect_height c - 20 - 20) ->
      pos_y (dragPosition d c clientX clientY) == fst (dom_y d)).
Proof.
  intros [Hx Hy] (Hw & Hh & _ & _) (Hx1 & Hx2 & Hy1 & Hy2).
  unfold inside in Hx, Hy. unfold dragPosition.
  destruct (dom_x d) as [xMin xMax], (dom_y d) as [yMin yMax].
  cbn [fst snd] in *. cbn [pos_x pos_y].
  set (W := rect_width c - 20 - 20) in *.
  set (H := rect_height c - 20 - 20) in *.
  set (mouseX := clientX - (rect_left c + 20)).
  set (mouseY := clientY - (rect_top c + 20)).
  destruct (scale_between mouseX W xMin xMax Hw) as [Bx1 Bx2];
    try (unfold mouseX; lra).
  destruct (scale_between (H - mouseY) H yMin yMax Hh) as [By1 By2];
    try (unfold mouseY; lra).
  rewrite (clamp_inside (mouseX / W * (xMax - xMin) + xMin)) by lra.
  rewrite (clamp_inside ((H - mouseY) / H * (yMax - yMin) + yMin)) by lra.
  split; [split; assumption|]. split; [split; assumption|].
  split; [|split; [|split]]; intros E.
  - assert (E0 : mouseX == 0) by (unfold mouseX; lra).
    rewrite E0. field. lra.
  - assert (E0 : mouseX == W) by (unfold mouseX; lra).
    rewrite E0. field. lra.
  - assert (E0 : mouseY == 0) by (unfold mouseY; lra).
    rewrite E0. field. lra.
  - assert (E0 : mouseY == H) by (unfold mouseY; lra).
    rewrite E0. field. lra.
Qed.

Lemma dragPosition_in_domain_witness :
  validDomain fullDomain /\ nonEmpty Samples.container
  /\ overPlot Samples.container 400 300
  /\ fst (dom_x fullDomain)
     <= pos_x (dragPosition fullDomain Samples.container 400 300).
Proof.
  assert (Hv : validDomain fullDomain) by (unfold validDomain, inside; cbn; lra).
  assert (Hn : nonEmpty Samples.container) by (unfold nonEmpty; cbn; lra).
  assert (Ho : overPlot Samples.container 400 300) by (unfold overPlot; cbn; lra).
  split; [exact Hv|]. split; [exact Hn|]. split; [exact Ho|].
  exact (proj1 (proj1 (dragPosition_in_domain fullDomain Samples.container
                                              400 300 Hv Hn Ho))).
Defined.

End GestureFacts.

(** ** The note pipeline *)

Section PipelineFacts.
Import Classifier Quantizer Pipeline.

Lemma classifyNoteSet_perm (notes : list MidiNote) :
  Permutation (fst (classifyNoteSet notes) ++ snd (classifyNoteSet notes)) notes.
Proof.
  unfold classifyNoteSet. cbn [fst snd]. rewrite <- map_app.
  pose proof (classifyNotes_perm (heapOf notes) (seq 0 (length notes))
                                 (seq_NoDup _ _)) as HP.
  apply (Permutation_map (heapOf notes)) in HP.
  now rewrite map_heapOf_seq in HP.
Qed.

Lemma quantizeNote_on_grid (unit : JS.number) (note : MidiNote) :
  0 < unit ->
  onGrid unit (startTime (quantizeNote unit note))
  /\ (exists k : Z, (1 <= k)%Z
                    /\ duration (quantizeNote unit note) == inject_Z k * unit)
  /\ unit <= duration (quantizeNote unit note)
  /\ pitch (quantizeNote unit note) = pitch note
  /\ velocity (quantizeNote unit note) = velocity note.
Proof.
  intros Hu. unfold quantizeNote. cbn [startTime duration pitch velocity].
  split; [eexists; reflexivity|].
  split; [|split; [|split; reflexivity]].
  - unfold JS.Math_round at 1.
    set (k := Qfloor (duration note / unit + (1 # 2))).
    destruct (Math_max_cases unit (inject_Z k * unit)) as [[H ->]|[H ->]].
    + exists k. split; [|reflexivity].
      assert (Hk : 1 < inject_Z k) by nra.
      change 1 with (inject_Z 1) in Hk. rewrite <- Zlt_Qlt in Hk. lia.
    + exists 1%Z. split; [lia|]. change (inject_Z 1) with 1. lra.
  - destruct (Math_max_cases unit (JS.Math_round (duration note / unit) * unit))
      as [[H ->]|[H ->]]; lra.
Qed.

(** X12. The notes [analyzeAndCreateSong] sends to the analysis are the
    performed notes, each snapped to the grid: for a tempo above zero,
    quantizing and then classifying keeps the number of notes, keeps the
    pitches, and every melody and harmony note starts on an integer
    multiple of the grid unit and lasts a whole positive number of grid
    units. *)
Theorem quantizeAndClassify_on_grid
        (rawNotes : list MidiNote) (bpm : JS.number) (quantization : Quantization) :
  0 < bpm ->
  let unit := secondsPerGridUnit bpm quantization in
  let melody := fst (quantizeAndClassify rawNotes bpm quantization) in
  let harmony := snd (quantizeAndClassify rawNotes bpm quantization) in
  (length melody + length harmony = length rawNotes)%nat
  /\ Permutation (map pitch (melody ++ harmony)) (map pitch rawNotes)
  /\ (forall note, In note (melody ++ harmony) ->
        onGrid unit (startTime note)
        /\ (exists k : Z, (1 <= k)%Z /\ duration note == inject_Z k * unit)
        /\ unit <= duration note).
Proof.
  intros Hb unit melody harmony.
  pose proof (gridUnit_pos bpm quantization Hb) as Hu. fold unit in Hu.
  pose proof (classifyNoteSet_perm (quantizeNotes rawNotes bpm quantization)) as HP.
  fold (quantizeAndClassify rawNotes bpm quantization) in HP.
  fold melody harmony in HP.
  split; [|split].
  - rewrite <- length_app, (Permutation_length HP).
    unfold quantizeNotes. now rewrite length_map.
  - rewrite (Permutation_map pitch HP). unfold quantizeNotes. rewrite map_map.
    erewrite map_ext; [reflexivity|]. intros note. reflexivity.
  - intros note Hin. apply (Permutation_in _ HP) in Hin.
    unfold quantizeNotes in Hin. apply in_map_iff in Hin as (raw & <- & _).
    destruct (quantizeNote_on_grid unit raw Hu) as (H1 & H2 & H3 & _).
    fold unit. repeat split; assumption.
Qed.

Lemma quantizeAndClassify_on_grid_witness :
  0 < 120
  /\ (length (fst (quantizeAndClassify Samples.chord 120%Q Q16))
      + length (snd (quantizeAndClassify Samples.chord 120%Q Q16))
      = length Samples.chord)%nat.
Proof.
  assert (H : 0 < 120) by reflexivity.
  split; [exact H|].
  exact (proj1 (quantizeAndClassify_on_grid Samples.chord 120 Q16 H)).
Defined.

Lemma multiples_close_equal (unit : Q) (j k : Z) :
  0 < unit ->
  inject_Z j * unit - inject_Z k * unit < unit ->
  inject_Z k * unit - inject_Z j * unit < unit ->
  j = k.
Proof.
  intros Hu H1 H2.
  assert (A : inject_Z j - inject_Z k < 1) by nra.
  assert (B : inject_Z k - inject_Z j < 1) by nra.
  assert (A' : inject_Z j < inject_Z (k + 1))
    by (rewrite inject_Z_plus; change (inject_Z 1) with 1; lra).
  assert (B' : inject_Z k < inject_Z (j + 1))
    by (rewrite inject_Z_plus; change (inject_Z 1) with 1; lra).
  rewrite <- Zlt_Qlt in A', B'. lia.
Qed.

(** X13. After quantization a chord is a set of notes that start at the
    same time: at a tempo above zero whose grid unit is at least the
    20 ms threshold (up to 750 bpm on the sixteenth grid, 1000 bpm on the
    triplet grid), any two notes that [classifyNotes] puts in the same
    simultaneity group of the quantized notes have equal start times. *)
Theorem quantized_groups_share_start
        (rawNotes : list MidiNote) (bpm : JS.number) (quantization : Quantization)
        (group : list nat) (a b : nat) :
  0 < bpm ->
  timeThreshold <= secondsPerGridUnit bpm quantization ->
  let quantized := quantizeNotes rawNotes bpm quantization in
  In group (simultaneityGroups (heapOf quantized)
                               (sortNotes (heapOf quantized)
                                          (seq 0 (length quantized)))) ->
  In a group -> In b group ->
  startTime (heapOf quantized a) = startTime (heapOf quantized b).
Proof.
  intros Hb Hth quantized Hg Ha Hb'.
  pose proof (gridUnit_pos bpm quantization Hb) as Hu.
  set (unit := secondsPerGridUnit bpm quantization) in *.
  set (heap := heapOf quantized) in *.
  set (sorted := sortNotes heap (seq 0 (length quantized))) in *.
  assert (Hgrid : forall n, In n group ->
                            exists k, startTime (heap n) = inject_Z k * unit).
  { intros n Hn.
    assert (Hs : In n sorted).
    { rewrite <- (groups_concat heap sorted). apply in_concat.
      exists group. now split. }
    apply (Permutation_in _ (sortNotes_perm heap _)) in Hs.
    apply in_seq in Hs. cbn in Hs.
    unfold heap, heapOf, quantized, quantizeNotes.
    rewrite (nth_indep _ nullNote (quantizeNote unit nullNote))
      by (unfold quantized, quantizeNotes in Hs; lia).
    rewrite map_nth. eexists. reflexivity. }
  pose proof (groups_span heap sorted (sortNotes_sorted heap _) group) as Hspan.
  destruct (Hgrid a Ha) as [j Ej], (Hgrid b Hb') as [k Ek].
  pose proof (Hspan a b Hg Ha Hb') as H1.
  pose proof (Hspan b a Hg Hb' Ha) as H2.
  rewrite Ej, Ek in *.
  rewrite (multiples_close_equal unit j k Hu); [reflexivity | lra | lra].
Qed.

Lemma quantized_groups_share_start_witness :
  0 < 120 /\ timeThreshold <= secondsPerGridUnit 120 Q16
  /\ startTime (heapOf (quantizeNotes Samples.chord 120 Q16) 0)
     = startTime (heapOf (quantizeNotes Samples.chord 120 Q16) 2).
Proof.
  assert (H1 : 0 < 120) by reflexivity.
  assert (H2 : timeThreshold <= secondsPerGridUnit 120 Q16) by discriminate.
  split; [exact H1|]. split; [exact H2|].
  apply (quantized_groups_share_start Samples.chord 120 Q16 [0; 1; 2]%nat 0 2 H1 H2).
  - left. vm_compute. reflexivity.
  - left. reflexivity.
  - right. right. left. reflexivity.
Defined.

End PipelineFacts.

(** ** The analysis service and the player *)

Section ServiceFacts.

Lemma fold_max_spec (l : list Q) :
  forall init,
    init <= fold_left JS.Math_max l init
    /\ (forall x, In x l -> x <= fold_left JS.Math_max l init)
    /\ (fold_left JS.Math_max l init = init \/ In (fold_left JS.Math_max l init) l).
Proof.
  induction l as [|y tl IH]; intros init; cbn [fold_left].
  - split; [lra|]. split; [intros x []|]. now left.
  - destruct (IH (JS.Math_max init y)) as (I1 & I2 & I3).
    destruct (Math_max_cases init y) as [[H E]|[H E]]; rewrite E in *.
    + split; [lra|]. split.
      * intros x [<-|Hx]; [exact I1 | now apply I2].
      * destruct I3 as [->|I3]; right; [now left | now right].
    + split; [exact I1|]. split.
      * intros x [<-|Hx]; [lra | now apply I2].
      * destruct I3 as [->|I3]; [now left | right; now right].
Qed.

Lemma fold_ends (allNotes : list MidiNote) (init : Q) :
  fold_left (fun max note => JS.Math_max max (startTime note + duration note))
            allNotes init
  = fold_left JS.Math_max (map (fun n => startTime n + duration n) allNotes) init.
Proof.
  revert init. induction allNotes as [|n tl IH]; intros init; cbn; [reflexivity|].
  apply IH.
Qed.

Lemma service_total_spec (allNotes : list MidiNote) :
  0 <= Service.totalDuration allNotes
  /\ (forall n, In n allNotes ->
                startTime n + duration n <= Service.totalDuration allNotes)
  /\ (Service.totalDuration allNotes = 0
      \/ exists n, In n allNotes
                   /\ Service.totalDuration allNotes = startTime n + duration n).
Proof.
  unfold Service.totalDuration.
  destruct allNotes as [|n0 tl]; [cbn; split; [lra|]; split; [intros n []| now left]|].
  cbn [length Nat.ltb Nat.leb]. rewrite fold_ends.
  destruct (fold_max_spec (map (fun n => startTime n + duration n) (n0 :: tl)) 0)
    as (I1 & I2 & I3).
  split; [exact I1|]. split.
  - intros n Hn. apply I2. now apply (in_map (fun n => startTime n + duration n)).
  - destruct I3 as [I3|I3]; [now left|]. right.
    apply in_map_iff in I3 as (n & E & Hn). exists n. now split.
Qed.

Lemma player_total_spec (allNotes : list MidiNote) :
  (forall n, In n allNotes ->
             startTime n + duration n <= Player.totalDuration allNotes)
  /\ (allNotes = []
      \/ exists n, In n allNotes
                   /\ Player.totalDuration allNotes = startTime n + duration n).
Proof.
  unfold Player.totalDuration, Player.Math_max_of.
  destruct allNotes as [|n0 tl]; [split; [intros n []| now left]|].
  cbn [map].
  destruct (fold_max_spec (map (fun n => startTime n + duration n) tl)
                          (startTime n0 + duration n0)) as (I1 & I2 & I3).
  split.
  - intros n [<-|Hn]; [exact I1|].
    apply I2. now apply (in_map (fun n => startTime n + duration n)).
  - right. destruct I3 as [I3|I3].
    + exists n0. split; [now left | exact I3].
    + apply in_map_iff in I3 as (n & E & Hn). exists n. split; [now right | now symmetry].
Qed.

(** X15. Both computations of a piece's total duration bound every
    note's end from above and are attained: the service's total is 0 or
    the end of some note, and never negative; the player's total is the
    end of some note (0 for no notes).  The two agree whenever some note
    ends at or after time 0, and the player schedules its stop 0.2 s
    after the last note ends. *)
Theorem total_durations_agree :
  (forall allNotes : list MidiNote,
      0 <= Service.totalDuration allNotes
      /\ (forall n, In n allNotes ->
                    startTime n + duration n <= Service.totalDuration allNotes)
      /\ (forall n, In n allNotes ->
                    startTime n + duration n <= Player.totalDuration allNotes))
  /\ (forall (allNotes : list MidiNote) (n : MidiNote),
         In n allNotes -> 0 <= startTime n + duration n ->
         Service.totalDuration allNotes == Player.totalDuration allNotes)
  /\ Service.totalDuration [] = Player.totalDuration []
  /\ (forall (melody harmony : list MidiNote) (n : MidiNote),
         In n melody \/ In n harmony ->
         startTime n + duration n + (2 # 10) <= Player.stopTime melody harmony).
Proof.
  split; [|split; [|split]].
  - intros allNotes.
    destruct (service_total_spec allNotes) as (S1 & S2 & _).
    destruct (player_total_spec allNotes) as (P1 & _).
    repeat split; assumption.
  - intros allNotes n Hn Hpos.
    destruct (service_total_spec allNotes) as (S1 & S2 & S3).
    destruct (player_total_spec allNotes) as (P1 & P2).
    destruct P2 as [->|(m & Hm & Em)]; [destruct Hn|].
    specialize (P1 n Hn). specialize (S2 m Hm).
    destruct S3 as [S3|(k & Hk & Ek)].
    + rewrite S3 in *. rewrite Em in *. lra.
    + pose proof (proj1 (player_total_spec allNotes) k Hk) as Pk.
      rewrite Ek, Em in *. lra.
  - reflexivity.
  - intros melody harmony n Hn. unfold Player.stopTime.
    destruct (player_total_spec (melody ++ harmony)) as (P1 & _).
    specialize (P1 n (proj2 (in_app_iff _ _ _) Hn)). lra.
Qed.

Lemma total_durations_agree_witness :
  In (Samples.noteAt 64 (1 # 100)) Samples.chord
  /\ 0 <= startTime (Samples.noteAt 64 (1 # 100))
          + duration (Samples.noteAt 64 (1 # 100))
  /\ Service.totalDuration Samples.chord == Player.totalDuration Samples.chord.
Proof.
  assert (H1 : In (Samples.noteAt 64 (1 # 100)) Samples.chord)
    by (right; left; reflexivity).
  assert (H2 : 0 <= startTime (Samples.noteAt 64 (1 # 100))
                    + duration (Samples.noteAt 64 (1 # 100))) by (cbn; lra).
  split; [exact H1|]. split; [exact H2|].
  exact (proj1 (proj2 total_durations_agree) Samples.chord _ H1 H2).
Defined.

(** X14. The correction [analyzeMidi] applies to the oracle's reply
    leaves the melodic scores alone and only ever raises the harmonic
    richness: for a reply with more than one chord change on a piece in
    which some note ends after time 0, the returned harmonic richness,
    and with it the y coordinate of the map position, is at least 5; a
    reply that is already at 5 or above is returned unchanged, and
    correcting twice is the same as correcting once. *)
Theorem analyzeMidi_correction :
  (forall (melody harmony : list MidiNote) (chordChanges : JS.number)
          (reply : Analysis),
      let result := Service.analyzeMidiResult melody harmony chordChanges reply in
      melodicComplexity result = melodicComplexity reply
      /\ melodicRichness result = melodicRichness reply
      /\ harmonicRichness reply <= harmonicRichness result
      /\ pos_x (Position.appMapPosition result)
         = pos_x (Position.appMapPosition reply))
  /\ (forall (melody harmony : list MidiNote) (chordChanges : JS.number)
             (reply : Analysis) (n : MidiNote),
         1 < chordChanges ->
         In n (melody ++ harmony) -> 0 < startTime n + duration n ->
         5 <= pos_y (Position.appMapPosition
                       (Service.analyzeMidiResult melody harmony chordChanges reply)))
  /\ (forall (melody harmony : list MidiNote) (chordChanges : JS.number)
             (reply : Analysis),
         5 <= harmonicRichness reply ->
         Service.analyzeMidiResult melody harmony chordChanges reply = reply)
  /\ (forall (chordChanges total : JS.number) (reply : Analysis),
         Service.correctAnalysis chordChanges total
           (Service.correctAnalysis chordChanges total reply)
         = Service.correctAnalysis chordChanges total reply).
Proof.
  split; [|split; [|split]].
  - intros melody harmony chordChanges reply result. subst result.
    unfold Service.analyzeMidiResult, Service.correctAnalysis.
    destruct (JS.gt chordChanges 1 && JS.gt (Service.totalDuration (melody ++ harmony)) 0
              && JS.lt (harmonicRichness reply) 5) eqn:E; cbn.
    + repeat split; try reflexivity.
      destruct (Math_max_cases (harmonicRichness reply) 5) as [[H ->]|[H ->]]; lra.
    + repeat split; try reflexivity. lra.
  - intros melody harmony chordChanges reply n Hc Hn Hend.
    unfold Position.appMapPosition. cbn [pos_y].
    unfold Service.analyzeMidiResult, Service.correctAnalysis.
    assert (Ht : 0 < Service.totalDuration (melody ++ harmony)).
    { destruct (service_total_spec (melody ++ harmony)) as (_ & S2 & _).
      specialize (S2 n Hn). lra. }
    unfold JS.gt.
    apply lt_true in Hc as ->. apply lt_true in Ht as ->. cbn [andb].
    destruct (JS.lt (harmonicRichness reply) 5) eqn:E; cbn [harmonicRichness].
    + destruct (Math_max_cases (harmonicRichness reply) 5) as [[H ->]|[H ->]]; lra.
    + now apply lt_false in E.
  - intros melody harmony chordChanges reply H5.
    unfold Service.analyzeMidiResult, Service.correctAnalysis.
    apply lt_false in H5 as ->. now rewrite !andb_false_r.
  - intros chordChanges total reply. unfold Service.correctAnalysis.
    destruct (JS.gt chordChanges 1 && JS.gt total 0) eqn:Eg; cbn [andb];
      [|reflexivity].
    destruct (JS.lt (harmonicRichness reply) 5) eqn:E; [|now rewrite E].
    cbn [harmonicRichness melodicComplexity melodicRichness].
    assert (F : JS.lt (JS.Math_max (harmonicRichness reply) 5) 5 = false).
    { apply lt_false.
      destruct (Math_max_cases (harmonicRichness reply) 5) as [[H ->]|[H ->]]; lra. }
    now rewrite F.
Qed.

Lemma analyzeMidi_correction_witness :
  1 < 3 /\ In (Samples.noteAt 60 0) (Samples.chord ++ [])
  /\ 0 < startTime (Samples.noteAt 60 0) + duration (Samples.noteAt 60 0)
  /\ 5 <= pos_y (Position.appMapPosition
                   (Service.analyzeMidiResult Samples.chord [] 3
                                              (mkAnalysis 40 2 30))).
Proof.
  assert (H1 : 1 < 3) by reflexivity.
  assert (H2 : In (Samples.noteAt 60 0) (Samples.chord ++ []))
    by (left; reflexivity).
  assert (H3 : 0 < startTime (Samples.noteAt 60 0) + duration (Samples.noteAt 60 0))
    by (cbn; lra).
  split; [exact H1|]. split; [exact H2|]. split; [exact H3|].
  exact (proj1 (proj2 analyzeMidi_correction) Samples.chord [] 3
               (mkAnalysis 40 2 30) _ H1 H2 H3).
Defined.

End ServiceFacts.

(** ** Songs on the map *)

Section SongFacts.
Import Songs.

Lemma find_first {A : Type} (f : A -> bool) (before : list A) (x : A)
      (after : list A) :
  (forall y, In y before -> f y = false) -> f x = true ->
  find f (before ++ x :: after) = Some x.
Proof.
  induction before as [|y tl IH]; intros Hb Hx; cbn.
  - now rewrite Hx.
  - rewrite (Hb y (or_introl eq_refl)). apply IH; [|exact Hx].
    intros z Hz. apply Hb. now right.
Qed.

Lemma updatedSong_placedAs (positions : list Placement) (song : Song) :
  placedAs positions song
           match find (fun p => String.eqb (placed_id p) (id song)) positions with
           | Some pos =>
               mkSong (id song) (name song) (melody song) (harmony song)
                      (analysis song) (mapPosition song)
                      (Some (mkMapPosition (placed_x pos) (placed_y pos)))
           | None => song
           end.
Proof.
  unfold placedAs.
  destruct (find (fun p => String.eqb (placed_id p) (id song)) positions)
    as [pos|] eqn:Ef; cbn [id name melody harmony analysis mapPosition
                              globalMapPosition].
  - repeat split.
    + intros Hnot. exfalso. apply find_some in Ef as [Hin Heq].
      apply String.eqb_eq in Heq. apply Hnot. rewrite <- Heq.
      now apply in_map.
    + intros before pos' after -> Hid Hb.
      rewrite (find_first _ before pos' after) in Ef.
      * now injection Ef as ->.
      * intros y Hy. apply String.eqb_neq. intros E. apply Hb.
        rewrite <- E. now apply in_map.
      * now apply String.eqb_eq.
  - repeat split. intros before pos after -> Hid _. exfalso.
    pose proof (find_none _ _ Ef pos (in_elt pos before after)) as Hn.
    cbn in Hn. apply String.eqb_neq in Hn. now apply Hn.
Qed.

(** X16. Merging the positions of a global analysis into the corpus
    changes nothing but global positions: [updatedSongs] keeps the
    number and order of the songs and, song by song, the id, name, notes,
    analysis and individual position; a song whose id the positions do
    not mention is kept as it is, and a song they mention gets the first
    position listed for its id.  Positions for unknown ids are
    ignored. *)
Theorem updatedSongs_merges (songs : list Song) (positions : list Placement) :
  Forall2 (placedAs positions) songs (updatedSongs songs positions).
Proof.
  unfold updatedSongs.
  induction songs as [|song tl IH]; cbn [map]; constructor.
  - apply updatedSong_placedAs.
  - exact IH.
Qed.

Lemma data_no_user (songs : list Song) (t : option MapPosition) :
  Forall (fun s => isSome (mapPosition s) = true) songs ->
  map pt_id (data songs None t) = map id songs
  /\ map pt_name (data songs None t) = map name songs
  /\ (t = None \/ Forall (fun s => id s <> userMelodyId) songs ->
      map (fun p => Some (positionOf p)) (data songs None t)
      = map mapPosition songs).
Proof.
  unfold data. induction 1 as [|s tl Hs Htl IH]; cbn [flat_map map app].
  - repeat split.
  - destruct IH as (I1 & I2 & I3).
    destruct (mapPosition s) as [p|] eqn:Ep; [|discriminate].
    assert (Hshape : exists pt,
               match String.eqb (id s) userMelodyId, t with
               | true, Some t0 =>
                   [mkPoint (pos_x t0) (pos_y t0) (name s) (id s) (15 # 10)]
               | _, _ => [mkPoint (pos_x p) (pos_y p) (name s) (id s) 1]
               end = [pt]
               /\ pt_id pt = id s /\ pt_name pt = name s
               /\ (t = None \/ id s <> userMelodyId -> positionOf pt = p)).
    { destruct (String.eqb_spec (id s) userMelodyId) as [E|E];
        [destruct t as [t0|]|]; eexists; (split; [reflexivity|]);
        cbn; repeat split; try reflexivity.
      - intros [F|F]; [discriminate | contradiction].
      - intros _. now destruct p.
      - intros _. now destruct p. }
    destruct Hshape as (pt & -> & H1 & H2 & H3).
    cbn [app map]. rewrite I1, I2, H1, H2. repeat split.
    intros Ht. rewrite I3, H3; [reflexivity | |].
    + destruct Ht as [Ht|Ht]; [now left | right; now inversion Ht].
    + destruct Ht as [Ht|Ht]; [now left | right; now inversion Ht].
Qed.

Lemma atGlobal_shown (l : list Song) :
  Forall (fun s => isSome (mapPosition s) = true)
         (map atGlobalPosition (filter (fun s => isSome (globalMapPosition s)) l)).
Proof.
  induction l as [|s tl IH]; cbn; [constructor|].
  destruct (isSome (globalMapPosition s)) eqn:E; cbn; [|exact IH].
  constructor; [exact E | exact IH].
Qed.

(** X17. In the similarity mode the map shows exactly the corpus and
    history songs that have a global position, in their order, each
    under its own id and name and (when no live drag position is set, or
    no such song carries the reserved id of the user's melody) at its
    global position instead of its individual one; the user's melody is
    not shown. *)
Theorem global_mode_points
        (songs userMelodyHistory : list Song) (userMelody : option Song)
        (transientPosition : option MapPosition) :
  let points := data (songsForMap global songs userMelodyHistory)
                     (userMelodyForMap global userMelody) transientPosition in
  let shown := shownGlobally songs userMelodyHistory in
  map pt_id points = map id shown
  /\ map pt_name points = map name shown
  /\ (transientPosition = None
      \/ Forall (fun s => id s <> userMelodyId) (songs ++ userMelodyHistory) ->
      map (fun p => Some (positionOf p)) points = map globalMapPosition shown).
Proof.
  intros points shown. subst points shown.
  unfold songsForMap, userMelodyForMap, shownGlobally.
  set (l := songs ++ userMelodyHistory).
  destruct (data_no_user _ transientPosition (atGlobal_shown l)) as (H1 & H2 & H3).
  rewrite H1, H2, !map_map. cbn [atGlobalPosition id name].
  repeat split.
  intros Ht. rewrite H3.
  - rewrite map_map. reflexivity.
  - destruct Ht as [Ht|Ht]; [now left | right].
    apply Forall_forall. intros s Hs.
    apply in_map_iff in Hs as (s0 & <- & Hs0). apply filter_In in Hs0 as [Hs0 _].
    rewrite Forall_forall in Ht. exact (Ht s0 Hs0).
Qed.

Lemma global_mode_points_witness :
  (@None MapPosition = None
   \/ Forall (fun s => id s <> userMelodyId)
             ([SongSamples.placed]
                ++ []))
  /\ map (fun p => Some (positionOf p))
         (data (songsForMap global
                  [SongSamples.placed]
                  [])
               (userMelodyForMap global None) None)
     = [Some (mkMapPosition 70 80)].
Proof.
  assert (H : @None MapPosition = None
              \/ Forall (fun s => id s <> userMelodyId)
                        ([SongSamples.placed] ++ []))
    by (left; reflexivity).
  split; [exact H|].
  exact (proj2 (proj2 (global_mode_points
                         [SongSamples.placed]
                         [] None None)) H).
Defined.

(** X18. The similarity map of a corpus with fewer than two analysed
    songs is empty.  Without a client [analyzeCorpusGlobally] throws, and
    with one it returns no positions without consulting the model; in
    both cases switching to the similarity mode leaves the corpus as it
    is, and if no song had a global position before, the map then built
    has no point. *)
Theorem small_corpus_has_empty_global_map
        (genAI : option Client) (globalAnalysisRun : bool)
        (songs userMelodyHistory : list Song) (userMelody : option Song)
        (transientPosition : option MapPosition) :
  (length (filter (fun s => isSome (analysis s)) songs) < 2)%nat ->
  Forall (fun s => globalMapPosition s = None) (songs ++ userMelodyHistory) ->
  analyzeCorpusGlobally None songs = Rejected LiteralIds.notInitialized
  /\ (forall client : Client,
         analyzeCorpusGlobally (Some client) songs = Resolved [])
  /\ fst (handleMapModeChange genAI global songs globalAnalysisRun) = songs
  /\ data (songsForMap global
                       (fst (handleMapModeChange genAI global songs
                                                 globalAnalysisRun))
                       userMelodyHistory)
          (userMelodyForMap global userMelody) transientPosition
     = [].
Proof.
  intros Hfew Hnone.
  assert (E : forall client : Client,
             analyzeCorpusGlobally (Some client) songs = Resolved []).
  { intros client. unfold analyzeCorpusGlobally. cbv zeta.
    apply Nat.ltb_lt in Hfew. now rewrite Hfew. }
  assert (U : updatedSongs songs [] = songs).
  { unfold updatedSongs. cbn [find]. apply map_id. }
  assert (H : fst (handleMapModeChange genAI global songs globalAnalysisRun)
              = songs).
  { unfold handleMapModeChange. destruct globalAnalysisRun; [reflexivity|].
    destruct genAI as [client|]; [|reflexivity].
    rewrite E. exact U. }
  split; [reflexivity|]. split; [exact E|]. split; [exact H|].
  rewrite H. unfold songsForMap, userMelodyForMap, data.
  assert (F : filter (fun s => isSome (globalMapPosition s))
                     (songs ++ userMelodyHistory) = []).
  { induction Hnone as [|s tl Hs Htl IH]; cbn; [reflexivity|].
    now rewrite Hs. }
  now rewrite F.
Qed.

Lemma small_corpus_has_empty_global_map_witness :
  (length (filter (fun s => isSome (analysis s))
                  [SongSamples.solo]) < 2)%nat
  /\ fst (handleMapModeChange
            (Some (fun _ => Resolved [mkPlacement LiteralIds.userMelody 1 2]))
            global [SongSamples.solo] false)
     = [SongSamples.solo].
Proof.
  assert (H1 : (length (filter (fun s => isSome (analysis s))
                  [SongSamples.solo]) < 2)%nat)
    by (cbn; lia).
  assert (H2 : Forall (fun s => globalMapPosition s = None)
                      ([SongSamples.solo] ++ []))
    by (repeat constructor).
  split; [exact H1|].
  exact (proj1 (proj2 (proj2 (small_corpus_has_empty_global_map
                  (Some (fun _ => Resolved [mkPlacement LiteralIds.userMelody 1 2]))
                  false _ [] None None H1 H2)))).
Defined.

(** X19. The live drag position only moves points that carry the reserved
    id of the user's melody: with or without it the map has the same
    points under the same ids and names, the points of every other id are
    identical, and each point with the reserved id sits at the live
    position when there is one. *)
Theorem transient_moves_only_user_point
        (songs : list Song) (activeUserMelody : option Song) (t : MapPosition) :
  map pt_id (data songs activeUserMelody (Some t))
  = map pt_id (data songs activeUserMelody None)
  /\ map pt_name (data songs activeUserMelody (Some t))
     = map pt_name (data songs activeUserMelody None)
  /\ filter (fun p => negb (isUserPoint p)) (data songs activeUserMelody (Some t))
     = filter (fun p => negb (isUserPoint p)) (data songs activeUserMelody None)
  /\ (forall p, In p (data songs activeUserMelody (Some t)) ->
                isUserPoint p = true -> positionOf p = t).
Proof.
  unfold data.
  set (all := match activeUserMelody with
              | Some um => songs ++ [um]
              | None => songs
              end).
  match goal with
  | |- map pt_id (flat_map ?f1 all) = map pt_id (flat_map ?f2 all) /\ _ =>
      set (F1 := f1); set (F2 := f2)
  end.
  assert (Hpoint : forall s,
             map pt_id (F1 s) = map pt_id (F2 s)
             /\ map pt_name (F1 s) = map pt_name (F2 s)
             /\ filter (fun p => negb (isUserPoint p)) (F1 s)
                = filter (fun p => negb (isUserPoint p)) (F2 s)
             /\ (forall p, In p (F1 s) -> isUserPoint p = true -> positionOf p = t)).
  { intros s. unfold F1, F2.
    destruct (mapPosition s) as [p0|]; [|repeat split; intros p []].
    destruct (String.eqb (id s) userMelodyId) eqn:E.
    - cbn [map filter pt_id pt_name]. unfold isUserPoint. cbn [pt_id].
      rewrite E. cbn [negb]. repeat split.
      intros p [<-|[]] _. now destruct t.
    - repeat split. intros p [<-|[]] Hu.
      unfold isUserPoint in Hu. cbn [pt_id] in Hu. congruence. }
  induction all as [|s tl IH]; cbn [flat_map]; [repeat split; intros p []|].
  destruct IH as (I1 & I2 & I3 & I4).
  destruct (Hpoint s) as (P1 & P2 & P3 & P4).
  rewrite !map_app, !filter_app, I1, I2, I3, P1, P2, P3.
  repeat split.
  intros p Hp Hu. apply in_app_or in Hp as [Hp|Hp]; [now apply (P4 p) | now apply I4].
Qed.

Lemma transient_moves_only_user_point_witness :
  In (mkPoint 1 2 LiteralIds.userMelody LiteralIds.userMelody (15 # 10))
     (data [SongSamples.solo] None (Some (mkMapPosition 1 2)))
  /\ isUserPoint (mkPoint 1 2 LiteralIds.userMelody LiteralIds.userMelody (15 # 10))
     = true
  /\ positionOf (mkPoint 1 2 LiteralIds.userMelody LiteralIds.userMelody (15 # 10))
     = mkMapPosition 1 2.
Proof.
  assert (H1 : In (mkPoint 1 2 LiteralIds.userMelody LiteralIds.userMelody (15 # 10))
                  (data [SongSamples.solo] None (Some (mkMapPosition 1 2))))
    by (left; reflexivity).
  assert (H2 : isUserPoint
                 (mkPoint 1 2 LiteralIds.userMelody LiteralIds.userMelody (15 # 10))
               = true) by reflexivity.
  split; [exact H1|]. split; [exact H2|].
  exact (proj2 (proj2 (proj2 (transient_moves_only_user_point
                                [SongSamples.solo] None (mkMapPosition 1 2))))
               _ H1 H2).
Defined.

End SongFacts.
